(** * Accelerando: the lookahead scheduler, the tempo ramp and the preset
    import/export of the metronome, embedded from the TypeScript sources.

    In the engine, JavaScript [number]s that hold musical quantities (tempo,
    audio-clock times, gains, frequencies) are embedded as exact rationals
    [Q]; counters (beat index, bar count, beats per bar, ramp interval) as
    [Z].  The engine part therefore says nothing about IEEE rounding, [NaN]
    or [Infinity]; a tempo of 0, at which JavaScript's [60 / bpm] is
    [Infinity] and the rational quotient is 0, lies outside it.  The presets
    part holds [NaN] and the infinities as values of their own. *)

From Stdlib Require Import ZArith QArith Qminmax Qround Lia Lqa Bool Sorted.
From stdpp Require Import gmap strings list fin_maps pretty.

Set Warnings "-register-all".

Local Open Scope Z_scope.

(** ** Outcome of a method call: it returns, an exception escapes it, or the
    model ran out of loop fuel. *)

Inductive Outcome (A : Type) : Type :=
| Returned (a : A)
| Threw (a : A)
| OutOfFuel.

Arguments Returned {A} a.
Arguments Threw {A} a.
Arguments OutOfFuel {A}.

(** [a < b] on JavaScript numbers, as a boolean. *)
Definition Qltb (a b : Q) : bool := negb (Qle_bool b a).

(** ** The audio graph built for one note (Web Audio nodes and parameters). *)

Module Audio.

Inductive SoundType := beep | click | woodblock | cowbell | kick | snare | drumset.

Inductive OscillatorType := sine | square.

(** [fixed hz] is [osc.frequency.value = hz]; [sweep f0 f1 t1] is
    [setValueAtTime(f0, time)] followed by
    [exponentialRampToValueAtTime(f1, t1)]. *)
Inductive Frequency :=
| fixed (hz : Q)
| sweep (f0 f1 : Q) (t1 : Q).

Inductive FilterType := bandpass | highpass.

(** A biquad filter; [filterQ] is the Web Audio default 1 where the source
    leaves it unset. *)
Record BiquadFilter := mkFilter {
  filterType : FilterType;
  filterFrequency : Q;
  filterQ : Q
}.

(** A sound source with its start and stop times.  A noise buffer holds
    [sampleRate * seconds] samples of [Math.random() * 2 - 1]; the samples
    themselves are not modelled. *)
Inductive Source :=
| Oscillator (type : OscillatorType) (frequency : Frequency) (start stop : Q)
| NoiseBuffer (seconds : Q) (start stop : Q).

(** Sources connected to the gain node, directly or through one filter. *)
Record Chain := mkChain {
  sources : list Source;
  through : option BiquadFilter
}.

(** One gain node connected to the destination: its inputs, the gain value
    set at the note's time and the instant at which the exponential decay to
    0.001 ends. *)
Record Voice := mkVoice {
  gain : Q;
  chains : list Chain;
  decayEnd : Q
}.

Definition Sound := list Voice.

Section Play.
(** [beatNumber] and [time] as passed by [scheduleNote]. *)
Variable beatNumber : Z.
Variable time : Q.

Definition playBeep : Sound :=
  let '(f, g) := if beatNumber =? 0 then (1000%Q, 1%Q) else (800%Q, 0.6%Q) in
  [ mkVoice g [ mkChain [Oscillator sine (fixed f) time (time + 0.1)] None ]
            (time + 0.1) ].

Definition playClick : Sound :=
  let '(f, g) := if beatNumber =? 0 then (1500%Q, 0.8%Q) else (1200%Q, 0.5%Q) in
  [ mkVoice g [ mkChain [Oscillator sine (fixed f) time (time + 0.02)] None ]
            (time + 0.02) ].

Definition playWoodblock : Sound :=
  let '(f, ff, g) :=
    if beatNumber =? 0 then (800%Q, 1500%Q, 0.7%Q) else (600%Q, 1200%Q, 0.5%Q) in
  [ mkVoice g
      [ mkChain [Oscillator square (fixed f) time (time + 0.05)]
                (Some (mkFilter bandpass ff 20)) ]
      (time + 0.05) ].

Definition playCowbell : Sound :=
  let '(f1, f2, g) :=
    if beatNumber =? 0 then (540%Q, 800%Q, 0.6%Q) else (500%Q, 750%Q, 0.4%Q) in
  [ mkVoice g
      [ mkChain [ Oscillator square (fixed f1) time (time + 0.08);
                  Oscillator square (fixed f2) time (time + 0.08) ]
                (Some (mkFilter bandpass 800 10)) ]
      (time + 0.08) ].

Definition playKick : Sound :=
  let '(fr, g) :=
    if beatNumber =? 0 then (sweep 150 50 (time + 0.1), 1.2%Q)
    else (sweep 120 40 (time + 0.08), 0.8%Q) in
  [ mkVoice g [ mkChain [Oscillator sine fr time (time + 0.15)] None ]
            (time + 0.15) ].

Definition playSnare : Sound :=
  let g := if beatNumber =? 0 then 0.8%Q else 0.5%Q in
  [ mkVoice g
      [ mkChain [NoiseBuffer 0.15 time (time + 0.15)]
                (Some (mkFilter highpass 1000 1));
        mkChain [Oscillator sine (fixed 200) time (time + 0.08)] None ]
      (time + 0.15) ].

Definition playHiHat (at_ : Q) (volume : Q) : Sound :=
  [ mkVoice volume
      [ mkChain [NoiseBuffer 0.05 at_ (at_ + 0.05)]
                (Some (mkFilter highpass 7000 1)) ]
      (at_ + 0.05) ].

(** [playDrumset] reads the engine's current [bpm] for the eighth note. *)
Definition playDrumset (bpm : Q) : Sound :=
  let secondsPerBeat := (60 / bpm)%Q in
  let eighthNoteTime := (secondsPerBeat / 2)%Q in
  (if (beatNumber =? 0) || (beatNumber =? 2) then
     [ mkVoice 1.2
         [ mkChain [Oscillator sine (sweep 150 50 (time + 0.1)) time (time + 0.15)]
                   None ]
         (time + 0.15) ]
   else [])
  ++
  (if (beatNumber =? 1) || (beatNumber =? 3) then
     [ mkVoice 0.8
         [ mkChain [NoiseBuffer 0.15 time (time + 0.15)]
                   (Some (mkFilter highpass 1000 1));
           mkChain [Oscillator sine (fixed 200) time (time + 0.08)] None ]
         (time + 0.15) ]
   else [])
  ++ playHiHat time 0.3
  ++ playHiHat (time + eighthNoteTime) 0.2.

(** The [switch (this.soundType)] of [scheduleNote]. *)
Definition play (soundType : SoundType) (bpm : Q) : Sound :=
  match soundType with
  | beep => playBeep
  | click => playClick
  | woodblock => playWoodblock
  | cowbell => playCowbell
  | kick => playKick
  | snare => playSnare
  | drumset => playDrumset bpm
  end.
End Play.

(** *** Comparing two sounds parameter by parameter (numbers by value). *)

Fixpoint all2 {A} (same : A -> A -> bool) (xs ys : list A) : bool :=
  match xs with
  | [] => match ys with [] => true | _ :: _ => false end
  | x :: xs' =>
      match ys with
      | [] => false
      | y :: ys' => same x y && all2 same xs' ys'
      end
  end.

Definition osc_type_eqb (a b : OscillatorType) : bool :=
  match a, b with sine, sine | square, square => true | _, _ => false end.

Definition filter_type_eqb (a b : FilterType) : bool :=
  match a, b with bandpass, bandpass | highpass, highpass => true | _, _ => false end.

Definition frequency_eqb (a b : Frequency) : bool :=
  match a, b with
  | fixed x, fixed y => Qeq_bool x y
  | sweep a0 a1 at1, sweep b0 b1 bt1 =>
      Qeq_bool a0 b0 && Qeq_bool a1 b1 && Qeq_bool at1 bt1
  | _, _ => false
  end.

Definition source_eqb (a b : Source) : bool :=
  match a, b with
  | Oscillator ta fa sa ea, Oscillator tb fb sb eb =>
      osc_type_eqb ta tb && frequency_eqb fa fb && Qeq_bool sa sb && Qeq_bool ea eb
  | NoiseBuffer da sa ea, NoiseBuffer db sb eb =>
      Qeq_bool da db && Qeq_bool sa sb && Qeq_bool ea eb
  | _, _ => false
  end.

Definition filter_eqb (a b : option BiquadFilter) : bool :=
  match a, b with
  | None, None => true
  | Some x, Some y =>
      filter_type_eqb (filterType x) (filterType y)
      && Qeq_bool (filterFrequency x) (filterFrequency y)
      && Qeq_bool (filterQ x) (filterQ y)
  | _, _ => false
  end.

Definition chain_eqb (a b : Chain) : bool :=
  all2 source_eqb (sources a) (sources b) && filter_eqb (through a) (through b).

Definition voice_eqb (a b : Voice) : bool :=
  Qeq_bool (gain a) (gain b)
  && all2 chain_eqb (chains a) (chains b)
  && Qeq_bool (decayEnd a) (decayEnd b).

(** Two sounds are the same when they consist of the same voices. *)
Definition same_sound (a b : Sound) : bool := all2 voice_eqb a b.

(** *** Timing of a sound *)

Definition source_start (s : Source) : Q :=
  match s with
  | Oscillator _ _ start _ => start
  | NoiseBuffer _ start _ => start
  end.

Definition source_stop (s : Source) : Q :=
  match s with
  | Oscillator _ _ _ stop => stop
  | NoiseBuffer _ _ stop => stop
  end.

(** All the sources feeding a voice's gain node. *)
Definition voice_sources (v : Voice) : list Source := flat_map sources (chains v).

(** A voice of a beat at [time] is well timed when its gain is positive, it
    has a source, every source starts at [time] or later and stops after it
    starts and no later than the end of the gain decay, and the decay ends
    when one of the sources stops. *)
Definition well_timed (time : Q) (v : Voice) : Prop :=
  (0 < gain v)%Q /\
  voice_sources v <> [] /\
  Forall (fun s => (time <= source_start s)%Q /\
                   (source_start s < source_stop s)%Q /\
                   (source_stop s <= decayEnd v)%Q) (voice_sources v) /\
  Exists (fun s => (source_stop s == decayEnd v)%Q) (voice_sources v).

End Audio.

(** ** The audio engine (class [AudioEngine]). *)

Module Engine.

Import Audio.

(** The private fields of the class.  [audioContext] records whether the
    context has been created ([null] otherwise), [timerID] whether a timer
    handle has been stored ([undefined] otherwise), and the two callback
    fields whether a consumer is registered. *)
Record Engine := mkEngine {
  audioContext : bool;
  isPlaying : bool;
  nextNoteTime : Q;
  currentBeat : Z;
  barCount : Z;
  timerID : bool;
  onBeatCallback : bool;
  onBpmChangeCallback : bool;
  bpm : Q;
  beatsPerBar : Z;
  soundType : SoundType;
  increaseAmount : Q;
  increaseIntervalBars : Z;
  maxBpm : Q
}.

(** Schedule ahead time (seconds) and lookahead interval (milliseconds). *)
Definition scheduleAheadTime : Q := 0.1.
Definition lookahead : Q := 25.

(** The engine as constructed by [new AudioEngine()]. *)
Definition initial : Engine :=
  mkEngine false false 0 0 0 false false false 60 4 beep 0 0 200.

(** What a method does to the outside world, in program order.
    [NoteScheduled] is a note whose [play...] method ran to its end, so that
    the whole [sound] is queued on the audio clock.  [NoteInterrupted] is a
    note whose [play...] method was left by an exception: the audio calls made
    before the failing one stay made, so an unspecified part of [sound]
    (possibly none of it, possibly whole voices, as the kick and the first
    hi-hat of the drum set when the second hi-hat fails) is queued. *)
Inductive Effect :=
| ContextCreated
| ContextResumed
| NoteScheduled (beat : Z) (time : Q) (sound : Sound)
| NoteInterrupted (beat : Z) (time : Q) (sound : Sound)
| BeatTimeout (delayMs : Q) (beat : Z) (time : Q)
| BpmChanged (newBpm : Q)
| SchedulerTimeout (delayMs : Q)
| TimeoutCleared.

(** *** Field assignments. *)

Definition set_audioContext (v : bool) (e : Engine) : Engine :=
  mkEngine v (isPlaying e) (nextNoteTime e) (currentBeat e) (barCount e) (timerID e)
    (onBeatCallback e) (onBpmChangeCallback e) (bpm e) (beatsPerBar e) (soundType e)
    (increaseAmount e) (increaseIntervalBars e) (maxBpm e).

Definition set_isPlaying (v : bool) (e : Engine) : Engine :=
  mkEngine (audioContext e) v (nextNoteTime e) (currentBeat e) (barCount e) (timerID e)
    (onBeatCallback e) (onBpmChangeCallback e) (bpm e) (beatsPerBar e) (soundType e)
    (increaseAmount e) (increaseIntervalBars e) (maxBpm e).

Definition set_nextNoteTime (v : Q) (e : Engine) : Engine :=
  mkEngine (audioContext e) (isPlaying e) v (currentBeat e) (barCount e) (timerID e)
    (onBeatCallback e) (onBpmChangeCallback e) (bpm e) (beatsPerBar e) (soundType e)
    (increaseAmount e) (increaseIntervalBars e) (maxBpm e).

Definition set_currentBeat (v : Z) (e : Engine) : Engine :=
  mkEngine (audioContext e) (isPlaying e) (nextNoteTime e) v (barCount e) (timerID e)
    (onBeatCallback e) (onBpmChangeCallback e) (bpm e) (beatsPerBar e) (soundType e)
    (increaseAmount e) (increaseIntervalBars e) (maxBpm e).

Definition set_barCount (v : Z) (e : Engine) : Engine :=
  mkEngine (audioContext e) (isPlaying e) (nextNoteTime e) (currentBeat e) v (timerID e)
    (onBeatCallback e) (onBpmChangeCallback e) (bpm e) (beatsPerBar e) (soundType e)
    (increaseAmount e) (increaseIntervalBars e) (maxBpm e).

Definition set_timerID (v : bool) (e : Engine) : Engine :=
  mkEngine (audioContext e) (isPlaying e) (nextNoteTime e) (currentBeat e) (barCount e) v
    (onBeatCallback e) (onBpmChangeCallback e) (bpm e) (beatsPerBar e) (soundType e)
    (increaseAmount e) (increaseIntervalBars e) (maxBpm e).

Definition set_bpm (v : Q) (e : Engine) : Engine :=
  mkEngine (audioContext e) (isPlaying e) (nextNoteTime e) (currentBeat e) (barCount e)
    (timerID e) (onBeatCallback e) (onBpmChangeCallback e) v (beatsPerBar e) (soundType e)
    (increaseAmount e) (increaseIntervalBars e) (maxBpm e).

(** *** Public configuration methods. *)

Definition init (e : Engine) : Engine * list Effect :=
  if audioContext e then (e, []) else (set_audioContext true e, [ContextCreated]).

Definition setSettings (bpm' : Q) (beatsPerBar' : Z) (increaseAmount' : Q)
    (increaseIntervalBars' : Z) (maxBpm' : Q) (e : Engine) : Engine :=
  mkEngine (audioContext e) (isPlaying e) (nextNoteTime e) (currentBeat e) (barCount e)
    (timerID e) (onBeatCallback e) (onBpmChangeCallback e)
    bpm' beatsPerBar' (soundType e) increaseAmount' increaseIntervalBars' maxBpm'.

Definition setSoundType (s : SoundType) (e : Engine) : Engine :=
  mkEngine (audioContext e) (isPlaying e) (nextNoteTime e) (currentBeat e) (barCount e)
    (timerID e) (onBeatCallback e) (onBpmChangeCallback e) (bpm e) (beatsPerBar e) s
    (increaseAmount e) (increaseIntervalBars e) (maxBpm e).

Definition setOnBeat (e : Engine) : Engine :=
  mkEngine (audioContext e) (isPlaying e) (nextNoteTime e) (currentBeat e) (barCount e)
    (timerID e) true (onBpmChangeCallback e) (bpm e) (beatsPerBar e) (soundType e)
    (increaseAmount e) (increaseIntervalBars e) (maxBpm e).

Definition setOnBpmChange (e : Engine) : Engine :=
  mkEngine (audioContext e) (isPlaying e) (nextNoteTime e) (currentBeat e) (barCount e)
    (timerID e) (onBeatCallback e) true (bpm e) (beatsPerBar e) (soundType e)
    (increaseAmount e) (increaseIntervalBars e) (maxBpm e).

(** *** Advancing the cursor. *)

Definition handleSpeedIncrease (e : Engine) : Engine * list Effect :=
  let newBpm := Qmin (bpm e + increaseAmount e) (maxBpm e) in
  if negb (Qeq_bool newBpm (bpm e)) then
    (set_bpm newBpm e, if onBpmChangeCallback e then [BpmChanged newBpm] else [])
  else (e, []).

(** [nextNote].  The rational [60 / bpm] is the code's [secondsPerBeat] for
    every tempo other than 0. *)
Definition nextNote (e : Engine) : Engine * list Effect :=
  let secondsPerBeat := (60 / bpm e)%Q in
  let e := set_nextNoteTime (nextNoteTime e + secondsPerBeat) e in
  let e := set_currentBeat (currentBeat e + 1) e in
  if currentBeat e =? beatsPerBar e then
    let e := set_currentBeat 0 e in
    let e := set_barCount (barCount e + 1) e in
    if Qltb 0 (increaseAmount e) && (0 <? increaseIntervalBars e) then
      if Z.rem (barCount e) (increaseIntervalBars e) =? 0 then handleSpeedIncrease e
      else (e, [])
    else (e, [])
  else (e, []).

(** The condition under which a cursor advance reaches [handleSpeedIncrease],
    and the tempo it then computes. *)
Definition ramp_due (e : Engine) : bool :=
  (currentBeat e + 1 =? beatsPerBar e)
  && Qltb 0 (increaseAmount e) && (0 <? increaseIntervalBars e)
  && (Z.rem (barCount e + 1) (increaseIntervalBars e) =? 0).

Definition candidate (e : Engine) : Q :=
  Qmin (bpm e + increaseAmount e) (maxBpm e).

(** The effects [fx] of the steps already taken, followed by the outcome of
    the rest of the method. *)
Definition prepend (fx : list Effect) (rest : Outcome (Engine * list Effect))
  : Outcome (Engine * list Effect) :=
  match rest with
  | Returned (e, fx') => Returned (e, fx ++ fx')
  | Threw (e, fx') => Threw (e, fx ++ fx')
  | OutOfFuel => OutOfFuel
  end.

(** *** Scheduling, with a sound backend that may raise.

    [raises beat time] tells whether building the audio graph for the note
    [(beat, time)] raises an exception (a Web Audio call failing).  The
    failing call may be any of those the [play...] method makes, so the
    exception can follow audio calls that have already taken effect. *)

Section Backend.
Variable raises : Z -> Q -> bool.

(** [now] is [audioContext.currentTime]; the control thread's view of the
    audio clock is refreshed between event-loop turns, so it is constant
    during one synchronous call.  With [soundType = beep] this is the
    [scheduleNote] of the beep-only engine. *)
Definition scheduleNote (beatNumber : Z) (time : Q) (now : Q) (e : Engine)
  : Outcome (list Effect) :=
  if negb (audioContext e) then Returned []
  else
    let notify :=
      if onBeatCallback e
      then [BeatTimeout (Qmax 0 ((time - now) * 1000)) beatNumber time]
      else [] in
    let sound := play beatNumber time (soundType e) (bpm e) in
    if raises beatNumber time
    then Threw (notify ++ [NoteInterrupted beatNumber time sound])
    else Returned (notify ++ [NoteScheduled beatNumber time sound]).

(** The [while] loop of [scheduler]; [fuel] bounds its iterations. *)
Fixpoint scheduler_while (fuel : nat) (now : Q) (e : Engine)
  : Outcome (Engine * list Effect) :=
  if Qltb (nextNoteTime e) (now + scheduleAheadTime) then
    match fuel with
    | O => OutOfFuel
    | S fuel =>
        match scheduleNote (currentBeat e) (nextNoteTime e) now e with
        | Returned fx1 =>
            let '(e1, fx2) := nextNote e in
            prepend (fx1 ++ fx2) (scheduler_while fuel now e1)
        | Threw fx1 => Threw (e, fx1)
        | OutOfFuel => OutOfFuel
        end
    end
  else Returned (e, []).

Definition scheduler (fuel : nat) (now : Q) (e : Engine)
  : Outcome (Engine * list Effect) :=
  if negb (isPlaying e) || negb (audioContext e) then Returned (e, [])
  else
    match scheduler_while fuel now e with
    | Returned (e1, fx) =>
        Returned (set_timerID true e1, fx ++ [SchedulerTimeout lookahead])
    | Threw r => Threw r
    | OutOfFuel => OutOfFuel
    end.

(** [suspended] is whether [audioContext.state === 'suspended'] when
    [start] looks at it. *)
Definition start (fuel : nat) (now : Q) (suspended : bool) (e : Engine)
  : Outcome (Engine * list Effect) :=
  if isPlaying e then Returned (e, [])
  else
    let '(e, fx0) := init e in
    let fx1 := if suspended then [ContextResumed] else [] in
    let e := set_isPlaying true e in
    let e := set_currentBeat 0 e in
    let e := set_barCount 0 e in
    let e := set_nextNoteTime (now + 0.1) e in
    prepend (fx0 ++ fx1) (scheduler fuel now e).

Definition stop (e : Engine) : Engine * list Effect :=
  (set_isPlaying false e, if timerID e then [TimeoutCleared] else []).

(** The host timer firing the armed poll at the successive clock readings
    [nows].  An exception escaping a poll leaves no timer armed, so no later
    poll runs. *)
Fixpoint polls (fuel : nat) (nows : list Q) (e : Engine)
  : Outcome (Engine * list Effect) :=
  match nows with
  | [] => Returned (e, [])
  | now :: rest =>
      match scheduler fuel now e with
      | Returned (e1, fx1) => prepend fx1 (polls fuel rest e1)
      | Threw r => Threw r
      | OutOfFuel => OutOfFuel
      end
  end.
End Backend.

(** A backend on which no call ever raises. *)
Definition reliable (raises : Z -> Q -> bool) : Prop :=
  forall beat time, raises beat time = false.

(** *** The musical timeline the cursor walks through. *)

(** The engine after [n] cursor advances. *)
Fixpoint after (n : nat) (e : Engine) : Engine :=
  match n with
  | O => e
  | S n => after n (fst (nextNote e))
  end.

(** The tempo-change notifications of the first [n] cursor advances. *)
Fixpoint notifications (n : nat) (e : Engine) : list Effect :=
  match n with
  | O => []
  | S n => snd (nextNote e) ++ notifications n (fst (nextNote e))
  end.

(** The next [n] beats: beat index and audio-clock time of each. *)
Fixpoint upcoming (n : nat) (e : Engine) : list (Z * Q) :=
  match n with
  | O => []
  | S n => (currentBeat e, nextNoteTime e) :: upcoming n (fst (nextNote e))
  end.

(** The number of ramp steps due during the first [n] advances of a fresh
    cursor: one per [increaseIntervalBars] completed bars. *)
Definition ramp_steps (e : Engine) (n : nat) : Z :=
  Z.of_nat n / beatsPerBar e / increaseIntervalBars e.

(** The tempo in force once [k * increaseIntervalBars] bars have been
    completed. *)
Definition tempo_at_boundary (e : Engine) (k : nat) : Q :=
  bpm (after (k * Z.to_nat (increaseIntervalBars e * beatsPerBar e)) e).

(** The tempo sequence in the specification's words: the starting tempo, then
    [min (tempo + k r) c] after the [k]-th ramp step. *)
Definition ramp_sequence (tempo r c : Q) (k : nat) : Q :=
  match k with
  | O => tempo
  | S _ => Qmin (tempo + inject_Z (Z.of_nat k) * r) c
  end.

(** Whether a sequence of effects arms the poll timer again. *)
Definition rearmed (fx : list Effect) : bool :=
  existsb (fun x => match x with SchedulerTimeout _ => true | _ => false end) fx.

(** The tempo stays positive and below the bound [B]. *)
Definition tempo_bounded (B : Q) (e : Engine) : Prop :=
  (0 < bpm e)%Q /\ (bpm e <= B)%Q /\ (0 < maxBpm e)%Q /\ (maxBpm e <= B)%Q.

(** The beats whose whole sound a sequence of effects has handed to the
    audio backend. *)
Fixpoint scheduled (fx : list Effect) : list (Z * Q) :=
  match fx with
  | [] => []
  | NoteScheduled beat time _ :: fx => (beat, time) :: scheduled fx
  | _ :: fx => scheduled fx
  end.

(** The beats whose sound was left incomplete by an exception. *)
Fixpoint interrupted (fx : list Effect) : list (Z * Q) :=
  match fx with
  | [] => []
  | NoteInterrupted beat time _ :: fx => (beat, time) :: interrupted fx
  | _ :: fx => interrupted fx
  end.

(** *** Sample configurations *)

(** A started engine in 3/4 at 120 bpm, no ramp. *)
Definition waltz : Engine :=
  mkEngine true true 0.1 0 0 true true true 120 3 beep 0 4 200.

(** A started engine in 4/4 at 80 bpm, ramping by 5 every 2 bars up to 90. *)
Definition trainer : Engine :=
  mkEngine true true 0.1 0 0 true true true 80 4 click 5 2 90.

(** [trainer] on the last beat of its second bar. *)
Definition trainer_bar_end : Engine :=
  mkEngine true true 4.6 3 1 true true true 80 4 click 5 2 90.

(** A started engine in 4/4 at 80 bpm, ramping by 5 every bar up to 200. *)
Definition steady_climb : Engine :=
  mkEngine true true 0.1 0 0 true true true 80 4 beep 5 1 200.

(** A started engine whose tempo (100) is above its ceiling (90). *)
Definition above_ceiling : Engine :=
  mkEngine true true 0.1 0 0 true true true 100 1 beep 5 1 90.

(** A backend that raises on every downbeat. *)
Definition downbeat_fails (beat : Z) (time : Q) : bool := beat =? 0.

(** A backend that raises on the second beat of the bar. *)
Definition second_beat_fails (beat : Z) (time : Q) : bool := beat =? 1.

(** A backend that never raises. *)
Definition never_fails (beat : Z) (time : Q) : bool := false.

(** The clock readings of [count] polls firing exactly every [lookahead]
    milliseconds after [start]. *)
Fixpoint regular_polls (start : Q) (count : nat) : list Q :=
  match count with
  | O => []
  | S count =>
      let now := Qred (start + lookahead / 1000) in
      now :: regular_polls now count
  end.

(** Polls that were delayed and skipped: only two fire during the same
    second. *)
Definition sporadic_polls : list Q := [0.4%Q; 1%Q].

(** *** The remaining public method and views of the effects *)

(** [toggle]; the value it returns is [isPlaying] of the engine it leaves. *)
Definition toggle (raises : Z -> Q -> bool) (fuel : nat) (now : Q) (suspended : bool)
    (e : Engine) : Outcome (Engine * list Effect) :=
  if isPlaying e then Returned (stop e) else start raises fuel now suspended e.

(** The one-shot timers armed for the beat callback: delay in milliseconds,
    beat index and audio-clock time handed to the callback. *)
Fixpoint beat_timers (fx : list Effect) : list (Q * Z * Q) :=
  match fx with
  | [] => []
  | BeatTimeout delay beat time :: fx => (delay, beat, time) :: beat_timers fx
  | _ :: fx => beat_timers fx
  end.

(** The tempo values handed to the tempo-change callback. *)
Fixpoint notified_tempos (fx : list Effect) : list Q :=
  match fx with
  | [] => []
  | BpmChanged v :: fx => v :: notified_tempos fx
  | _ :: fx => notified_tempos fx
  end.

(** Whether a sequence of effects creates the audio context. *)
Definition creates_context (fx : list Effect) : bool :=
  existsb (fun x => match x with ContextCreated => true | _ => false end) fx.

(** The effects a call has had, whether it returned or threw. *)
Definition effects_of (o : Outcome (Engine * list Effect)) : list Effect :=
  match o with
  | Returned (_, fx) => fx
  | Threw (_, fx) => fx
  | OutOfFuel => []
  end.

(** The timer [scheduleNote] arms for the beat callback of a note when the
    clock reads [now]. *)
Definition beat_timer (now : Q) (note : Z * Q) : Q * Z * Q :=
  (Qmax 0 ((snd note - now) * 1000), fst note, snd note).

(** The state of the loop when it stops after [n] beats, by returning or by
    an exception. *)
Definition loop_trace (raises : Z -> Q -> bool) (now : Q) (e : Engine)
    (o : Outcome (Engine * list Effect)) : Prop :=
  match o with
  | Returned (e', fx) =>
      exists n, e' = after n e /\ scheduled fx = upcoming n e /\
        beat_timers fx =
          (if onBeatCallback e then map (beat_timer now) (upcoming n e) else []) /\
        rearmed fx = false /\
        (forall k, (k < n)%nat ->
           (nextNoteTime (after k e) < now + scheduleAheadTime)%Q) /\
        (now + scheduleAheadTime <= nextNoteTime (after n e))%Q
  | Threw (e', fx) =>
      exists n, e' = after n e /\ scheduled fx = upcoming n e /\
        beat_timers fx =
          (if onBeatCallback e then map (beat_timer now) (upcoming (S n) e) else []) /\
        rearmed fx = false /\
        (forall k, (k <= n)%nat ->
           (nextNoteTime (after k e) < now + scheduleAheadTime)%Q) /\
        raises (currentBeat (after n e)) (nextNoteTime (after n e)) = true
  | OutOfFuel => True
  end.

End Engine.

(** ** The presentation layer's preset export and import ([App]). *)

Module App.

Import Audio.

(** The JavaScript values the component can hold: the JSON values, and the
    numbers that JSON text cannot write.  [JNum] is a finite number, an exact
    rational (0 and -0 are one value); [JInfinity] is [Infinity] or [-Infinity], which [JSON.parse]
    gives for a numeral out of range such as [1e999]; [JNaN] is [NaN], which
    [JSON.parse] never gives but arithmetic on a missing value does.  An
    object is a finite map from property names to values. *)
Inductive json :=
| JNull
| JBool (b : bool)
| JNum (q : Q)
| JStr (s : string)
| JArr (l : list json)
| JObj (m : gmap string json)
| JNaN
| JInfinity (negative : bool).

(** A JavaScript [number]. *)
Inductive number :=
| finite (q : Q)
| NaN
| Infinity (negative : bool).

Definition numberValue (n : number) : json :=
  match n with
  | finite q => JNum q
  | NaN => JNaN
  | Infinity negative => JInfinity negative
  end.

(** JavaScript truthiness of a value. *)
Definition truthy (v : json) : bool :=
  match v with
  | JNull => false
  | JBool b => b
  | JNum q => negb (Qeq_bool q 0)
  | JStr s => negb (String.eqb s "")
  | JArr _ => true
  | JObj _ => true
  | JNaN => false
  | JInfinity _ => true
  end.

(** The own enumerable properties of a value, as object spread and rest
    destructuring see them: the entries of an object, the indexed elements of
    an array, the indexed characters of a string (ASCII text), nothing for
    the other primitives. *)
Definition ownProperties (v : json) : gmap string json :=
  match v with
  | JObj m => m
  | JArr l => list_to_map (imap (fun i x => (pretty i, x)) l)
  | JStr s =>
      list_to_map
        (imap (fun i c => (pretty i, JStr (String c EmptyString)))
              (String.list_ascii_of_string s))
  | _ => ∅
  end.

(** Reading a property: [None] is a [TypeError] (the receiver is [null]),
    [Some None] is [undefined]. *)
Definition getProperty (v : json) (key : string) : option (option json) :=
  match v with
  | JNull => None
  | _ => Some (ownProperties v !! key)
  end.

(** The text of a file, represented by what [JSON.parse] makes of it;
    [JSON.stringify] and [JSON.parse] belong to the platform.  No text parses
    to a value that holds [JNaN]. *)
Inductive FileText :=
| NotJSON
| Document (v : json).

(** The value that the text written by [JSON.stringify] parses to:
    [JSON.stringify] writes [null] for [NaN], [Infinity] and [-Infinity],
    wherever they stand, and every other value as it is. *)
Fixpoint serialised (v : json) : json :=
  match v with
  | JNaN | JInfinity _ => JNull
  | JArr l => JArr (map serialised l)
  | JObj m => JObj (serialised <$> m)
  | _ => v
  end.

Definition JSON_stringify (v : json) : FileText := Document (serialised v).

Definition JSON_parse (text : FileText) : option json :=
  match text with
  | NotJSON => None
  | Document v => Some v
  end.

(** The component state that export and import touch.  [settings] is the
    settings object held in React state, [currentBpm] may become
    [undefined] ([None]). *)
Record State := mkState {
  settings : gmap string json;
  soundType : json;
  isPlaying : bool;
  currentBpm : option json
}.

(** What the user is shown. *)
Inductive Notice :=
| ConsoleError (message : string)
| Alert (message : string).

(** The settings object of the [PracticeSettings] interface. *)
Record PracticeSettings := mkSettings {
  startBpm : Q;
  maxBpm : Q;
  increaseAmount : Q;
  increaseIntervalBars : Q;
  beatsPerBar : Q
}.

Definition settingsObject (p : PracticeSettings) : gmap string json :=
  <["startBpm" := JNum (startBpm p)]>
  (<["maxBpm" := JNum (maxBpm p)]>
  (<["increaseAmount" := JNum (increaseAmount p)]>
  (<["increaseIntervalBars" := JNum (increaseIntervalBars p)]>
  (<["beatsPerBar" := JNum (beatsPerBar p)]> ∅)))).

Definition soundTypeName (s : SoundType) : string :=
  match s with
  | beep => "beep"
  | click => "click"
  | woodblock => "woodblock"
  | cowbell => "cowbell"
  | kick => "kick"
  | snare => "snare"
  | drumset => "drumset"
  end.

(** The component as first rendered. *)
Definition initial : State :=
  mkState (settingsObject (mkSettings 80 200 0 4 4)) (JStr "beep") false
          (Some (JNum 80)).

(** [exportPreset]: the preset object whose serialisation is downloaded;
    [date] is [new Date().toISOString().slice(0, 10)]. *)
Definition exportPreset (date : string) (st : State) : json :=
  JObj (<["name" := JStr ("Accelerando_Preset_" +:+ date)]>
       (<["settings" := JObj (<["soundType" := soundType st]> (settings st))]> ∅)).

Definition exportedFile (date : string) (st : State) : FileText :=
  JSON_stringify (exportPreset date st).

Definition importFailure : list Notice :=
  [ ConsoleError "Failed to import preset:";
    Alert "Failed to import preset. Please check the file format." ].

(** [importPreset] with the file reader's [onload] handler; [file] is the
    selected file's text, [None] when no file was selected. *)
Definition importPreset (file : option FileText) (st : State) : State * list Notice :=
  match file with
  | None => (st, [])
  | Some text =>
      match JSON_parse text with
      | None => (st, importFailure)
      | Some preset =>
          match getProperty preset "settings" with
          | None => (st, importFailure)
          | Some None => (st, [])
          | Some (Some presetSettings) =>
              if truthy presetSettings then
                let importedSound := ownProperties presetSettings !! "soundType" in
                let importedSettings := delete "soundType" (ownProperties presetSettings) in
                let soundType' :=
                  match importedSound with
                  | Some s => if truthy s then s else soundType st
                  | None => soundType st
                  end in
                let currentBpm' :=
                  if isPlaying st then currentBpm st
                  else importedSettings !! "startBpm" in
                (mkState importedSettings soundType' (isPlaying st) currentBpm', [])
              else (st, [])
          end
      end
  end.

(** *** Sample preset files *)

(** A JSON document with a name but no [settings]. *)
Definition nameOnlyFile : FileText :=
  Document (JObj (<["name" := JStr "My preset"]> ∅)).

(** A JSON document whose [settings] is the number 1. *)
Definition numericSettingsFile : FileText :=
  Document (JObj (<["name" := JStr "My preset"]> (<["settings" := JNum 1]> ∅))).

(** A component holding 100-160 bpm, +4 every 2 bars, 3/4, cowbell. *)
Definition customised : State :=
  mkState (settingsObject (mkSettings 100 160 4 2 3)) (JStr "cowbell") false
          (Some (JNum 100)).

(** *** The other handlers that write the settings and the sound variant *)

(** A state can be exported without loss of a property when its settings
    object has no [soundType] property of its own and its sound variant is
    truthy. *)
Definition exportable (st : State) : Prop :=
  settings st !! "soundType" = None /\ truthy (soundType st) = true.

(** [setSettings({ ...settings, key: v })], as the handlers given to the
    knobs and to the tempo dial do it with the number [v] they are called
    with. *)
Definition setField (key : string) (v : number) (st : State) : State :=
  mkState (<[key := numberValue v]> (settings st)) (soundType st) (isPlaying st)
          (currentBpm st).

(** The [onStartBpmChange] handler given to the tempo dial. *)
Definition onStartBpmChange (v : number) (st : State) : State :=
  let st' := setField "startBpm" v st in
  if isPlaying st then st'
  else mkState (settings st') (soundType st') (isPlaying st') (Some (numberValue v)).

(** [togglePlay], as far as the component state goes. *)
Definition togglePlay (st : State) : State :=
  if isPlaying st
  then mkState (settings st) (soundType st) false (currentBpm st)
  else mkState (settings st) (soundType st) true (settings st !! "startBpm").

(** What can happen to the component: an import, a call of one of the five
    handlers that write a setting, with the number [v] the dial or the knob
    hands over ([NaN] and the infinities included), the choice of a sound,
    the play button, the engine reporting a tempo. *)
Inductive Action :=
| Import (file : option FileText)
| StartBpmDialled (v : number)
| MaxBpmDialled (v : number)
| BeatsPerBarSet (v : number)
| IncreaseAmountSet (v : number)
| IncreaseIntervalBarsSet (v : number)
| SoundChosen (s : SoundType)
| PlayToggled
| TempoReported (v : number).

Definition perform (a : Action) (st : State) : State :=
  match a with
  | Import file => fst (importPreset file st)
  | StartBpmDialled v => onStartBpmChange v st
  | MaxBpmDialled v => setField "maxBpm" v st
  | BeatsPerBarSet v => setField "beatsPerBar" v st
  | IncreaseAmountSet v => setField "increaseAmount" v st
  | IncreaseIntervalBarsSet v => setField "increaseIntervalBars" v st
  | SoundChosen s => mkState (settings st) (JStr (soundTypeName s)) (isPlaying st)
                             (currentBpm st)
  | PlayToggled => togglePlay st
  | TempoReported v => mkState (settings st) (soundType st) (isPlaying st)
                               (Some (numberValue v))
  end.

(** A state whose settings and sound variant hold neither [NaN] nor an
    infinity, at any depth: serialisation leaves them as they are. *)
Definition writable (st : State) : Prop :=
  serialised <$> settings st = settings st /\ serialised (soundType st) = soundType st.

(** A preset whose [startBpm] is the numeral [1e999], which [JSON.parse]
    reads as [Infinity]. *)
Definition hugeTempoFile : FileText :=
  Document (JObj (<["settings" :=
    JObj (<["startBpm" := JInfinity false]> (<["beatsPerBar" := JNum 4]> ∅))]> ∅)).

(** A preset whose settings lack [soundType] and [maxBpm]. *)
Definition silentPresetFile : FileText :=
  Document (JObj (<["settings" :=
    JObj (<["startBpm" := JNum 90]> (<["beatsPerBar" := JNum 5]> ∅))]> ∅)).

End App.

(** ** The knob ([Knob]) *)

Module Knob.

Import App.

(** The minus button: [onChange(Math.max(min, value - 1))]. *)
Definition minusClicked (min value : Q) : Q := Qmax min (value - 1)%Q.

(** The plus button: [onChange(Math.min(max, value + 1))]. *)
Definition plusClicked (max value : Q) : Q := Qmin max (value + 1)%Q.

(** The same two handlers on whatever the [value] property holds, [None]
    being [undefined] (the setting is missing).  [ToNumber] of [undefined] is
    [NaN], of [null] 0, of a boolean 0 or 1; [value + 1] on [undefined],
    [null], a boolean or a number is the sum of the numbers.  A string, an
    array or an object goes through its text, which is not modelled: the
    result is then [None]. *)
Definition ToNumber (value : option json) : option number :=
  match value with
  | None => Some NaN
  | Some JNull => Some (finite 0)
  | Some (JBool b) => Some (finite (if b then 1 else 0))
  | Some (JNum q) => Some (finite q)
  | Some JNaN => Some NaN
  | Some (JInfinity negative) => Some (Infinity negative)
  | Some (JStr _) | Some (JArr _) | Some (JObj _) => None
  end.

(** [x + d] for a finite [d]. *)
Definition shift (x : number) (d : Q) : number :=
  match x with
  | finite q => finite (q + d)
  | _ => x
  end.

(** [Math.max(bound, x)] and [Math.min(bound, x)] for a finite [bound]. *)
Definition Math_max (bound : Q) (x : number) : number :=
  match x with
  | finite q => finite (Qmax bound q)
  | NaN => NaN
  | Infinity false => Infinity false
  | Infinity true => finite bound
  end.

Definition Math_min (bound : Q) (x : number) : number :=
  match x with
  | finite q => finite (Qmin bound q)
  | NaN => NaN
  | Infinity false => finite bound
  | Infinity true => Infinity true
  end.

Definition minusPressed (min : Q) (value : option json) : option number :=
  match ToNumber value with
  | Some x => Some (Math_max min (shift x (-1)))
  | None => None
  end.

Definition plusPressed (max : Q) (value : option json) : option number :=
  match ToNumber value with
  | Some x => Some (Math_min max (shift x 1))
  | None => None
  end.

End Knob.

(** ** The three knobs of the component and what the user does with them *)

Module Panel.

Import App.

(** "Time Signature", "Increase By" and "Every N Bars". *)
Inductive KnobName := timeSignature | increaseBy | everyNBars.

(** The setting a knob shows, its [min] and [max], and the handler it is
    given as [onChange]. *)
Definition knobKey (k : KnobName) : string :=
  match k with
  | timeSignature => "beatsPerBar"
  | increaseBy => "increaseAmount"
  | everyNBars => "increaseIntervalBars"
  end.

Definition knobMin (k : KnobName) : Q :=
  match k with timeSignature => 1 | increaseBy => 0 | everyNBars => 1 end.

Definition knobMax (k : KnobName) : Q :=
  match k with timeSignature => 12 | increaseBy => 10 | everyNBars => 32 end.

Definition knobHandler (k : KnobName) (v : number) : Action :=
  match k with
  | timeSignature => BeatsPerBarSet v
  | increaseBy => IncreaseAmountSet v
  | everyNBars => IncreaseIntervalBarsSet v
  end.

(** What happens on the page.  [Handled a] is a handler of the component
    being called: by the file input, by the tempo dial or the slider of a
    knob with the number they have computed, by a sound button, by the play
    button, by the engine.  [MinusPressed k viaText] and [PlusPressed k
    viaText] are the buttons of knob [k], which compute the number they hand
    over from the setting the knob shows; [viaText] is that number in the
    one case left open by [Knob.ToNumber], a setting that is a string, an
    array or an object. *)
Inductive Gesture :=
| Handled (a : Action)
| MinusPressed (k : KnobName) (viaText : number)
| PlusPressed (k : KnobName) (viaText : number).

Definition gesture (g : Gesture) (st : State) : State :=
  match g with
  | Handled a => perform a st
  | MinusPressed k viaText =>
      let v := default viaText (Knob.minusPressed (knobMin k) (settings st !! knobKey k)) in
      perform (knobHandler k v) st
  | PlusPressed k viaText =>
      let v := default viaText (Knob.plusPressed (knobMax k) (settings st !! knobKey k)) in
      perform (knobHandler k v) st
  end.

(** The state after a sequence of gestures, the first of the list first. *)
Definition gestures (gs : list Gesture) (st : State) : State :=
  fold_left (fun st g => gesture g st) gs st.

End Panel.

(** ** The tempo dial ([TempoRangeCircle]) *)

Module TempoRangeCircle.

Definition MIN_BPM : Q := 30.
Definition MAX_BPM : Q := 300.

(** Tachometer range: 225 degrees (bottom-left) to 495 degrees
    (bottom-right). *)
Definition START_ANGLE : Q := 225.
Definition END_ANGLE : Q := 495.
Definition TOTAL_ANGLE : Q := (END_ANGLE - START_ANGLE)%Q.

Definition bpmToAngle (bpm : Q) : Q :=
  let ratio := ((bpm - MIN_BPM) / (MAX_BPM - MIN_BPM))%Q in
  (START_ANGLE + ratio * TOTAL_ANGLE)%Q.

(** [Math.round]: the nearest integer, halves upwards. *)
Definition Math_round (x : Q) : Z := Qfloor (x + (1 # 2))%Q.

(** [calculateBpmFromPosition], from the pointer's direction on.  The
    trigonometry is not modelled: [direction] is the value of
    [Math.atan2(deltaY, deltaX) * (180 / Math.PI) + 90], the pointer's
    direction seen from the centre of the container, in degrees clockwise
    from the top; [container] is whether [containerRef.current] is set. *)
Definition calculateBpmFromPosition (container : bool) (direction : Q) : Z :=
  if negb container then 0
  else
    let angle := (if Qltb direction 0 then direction + 360 else direction)%Q in
    let effectiveAngle := angle in
    let effectiveAngle := (if Qle_bool angle 135 then angle + 360 else effectiveAngle)%Q in
    let effectiveAngle :=
      if Qltb 135 angle && Qltb angle 225
      then (if Qltb angle 180 then END_ANGLE else START_ANGLE)
      else effectiveAngle in
    let effectiveAngle := Qmax START_ANGLE (Qmin END_ANGLE effectiveAngle) in
    let ratio := ((effectiveAngle - START_ANGLE) / TOTAL_ANGLE)%Q in
    let bpm := (MIN_BPM + ratio * (MAX_BPM - MIN_BPM))%Q in
    Math_round (Qmax MIN_BPM (Qmin MAX_BPM bpm)).

Inductive Handle := startHandle | maxHandle.

(** The callback a pointer move invokes, with its argument. *)
Inductive Change :=
| StartBpmChange (bpm : Z)
| MaxBpmChange (bpm : Z).

(** [handleMouseMove] (and [handleTouchMove] for the first touch);
    [startBpm] and [maxBpm] are the component's properties. *)
Definition handleMouseMove (dragging : option Handle) (container : bool)
    (direction : Q) (startBpm maxBpm : Q) : option Change :=
  match dragging with
  | None => None
  | Some handle =>
      let newBpm := calculateBpmFromPosition container direction in
      match handle with
      | startHandle =>
          if Qle_bool (inject_Z newBpm) maxBpm then Some (StartBpmChange newBpm) else None
      | maxHandle =>
          if Qle_bool startBpm (inject_Z newBpm) then Some (MaxBpmChange newBpm) else None
      end
  end.

(** The tempo range [(startBpm, maxBpm)] after a pointer move, the parent
    storing the value it is called back with and passing it down again. *)
Definition moved (dragging : option Handle) (container : bool) (direction : Q)
    (range : Q * Q) : Q * Q :=
  match handleMouseMove dragging container direction (fst range) (snd range) with
  | Some (StartBpmChange v) => (inject_Z v, snd range)
  | Some (MaxBpmChange v) => (fst range, inject_Z v)
  | None => range
  end.

(** The range after a drag of one handle through successive pointer
    directions. *)
Definition dragged (handle : Handle) (directions : list Q) (range : Q * Q) : Q * Q :=
  fold_left (fun r direction => moved (Some handle) true direction r) directions range.

(** The direction in which the pointer sits on the mark drawn at [angle]. *)
Definition directionOfMark (angle : Q) : Q :=
  if Qle_bool angle 270 then angle else (angle - 360)%Q.

End TempoRangeCircle.
(** * Properties *)

Import Audio Engine.

Lemma Qltb_true a b : Qltb a b = true <-> (a < b)%Q.
Proof.
  unfold Qltb. rewrite negb_true_iff.
  destruct (Qle_bool b a) eqn:E.
  - apply Qle_bool_iff in E. split; [discriminate | intros H; exfalso; lra].
  - split; [intros _ | reflexivity].
    apply Qnot_le_lt. intros H. apply Qle_bool_iff in H. congruence.
Qed.

Lemma Qltb_false a b : Qltb a b = false <-> (b <= a)%Q.
Proof.
  unfold Qltb. rewrite negb_false_iff. apply Qle_bool_iff.
Qed.


(** [Math.min] returns its second argument itself when it is the smaller. *)
Lemma Qmin_right (x y : Q) : (y < x)%Q -> Qmin x y = y.
Proof.
  intros H. unfold Qmin, GenericMinMax.gmin.
  apply Qgt_alt in H. now rewrite H.
Qed.

(** ** One cursor advance, field by field. *)

Ltac nextNote_cases :=
  unfold nextNote, handleSpeedIncrease; simpl;
  repeat match goal with
         | |- context [if ?c then _ else _] => destruct c eqn:?; simpl
         end;
  try reflexivity; try congruence.

Lemma nextNote_time e :
  nextNoteTime (fst (nextNote e)) = (nextNoteTime e + 60 / bpm e)%Q.
Proof. nextNote_cases. Qed.

Lemma nextNote_beat e :
  currentBeat (fst (nextNote e)) =
  if currentBeat e + 1 =? beatsPerBar e then 0 else currentBeat e + 1.
Proof. nextNote_cases. Qed.

Lemma nextNote_bar e :
  barCount (fst (nextNote e)) =
  if currentBeat e + 1 =? beatsPerBar e then barCount e + 1 else barCount e.
Proof. nextNote_cases. Qed.

Lemma nextNote_bpm e :
  bpm (fst (nextNote e)) =
  if ramp_due e && negb (Qeq_bool (candidate e) (bpm e)) then candidate e else bpm e.
Proof. unfold ramp_due, candidate. nextNote_cases. Qed.

Lemma nextNote_effects e :
  snd (nextNote e) =
  if ramp_due e && negb (Qeq_bool (candidate e) (bpm e)) && onBpmChangeCallback e
  then [BpmChanged (candidate e)] else [].
Proof. unfold ramp_due, candidate. nextNote_cases. Qed.

Lemma nextNote_settings e :
  let e' := fst (nextNote e) in
  beatsPerBar e' = beatsPerBar e /\ increaseAmount e' = increaseAmount e /\
  increaseIntervalBars e' = increaseIntervalBars e /\ maxBpm e' = maxBpm e /\
  soundType e' = soundType e /\ audioContext e' = audioContext e /\
  isPlaying e' = isPlaying e /\ timerID e' = timerID e /\
  onBeatCallback e' = onBeatCallback e /\
  onBpmChangeCallback e' = onBpmChangeCallback e.
Proof. nextNote_cases; repeat split. Qed.

(** ** The timeline of cursor advances. *)

Lemma after_S n e : after (S n) e = fst (nextNote (after n e)).
Proof.
  revert e. induction n as [|n IH]; intros e; [reflexivity|].
  change (after (S (S n)) e) with (after (S n) (fst (nextNote e))).
  rewrite IH. reflexivity.
Qed.

Lemma after_add n m e : after (n + m) e = after m (after n e).
Proof.
  revert e. induction n as [|n IH]; intros e; [reflexivity|].
  simpl. apply IH.
Qed.

Lemma after_settings n e :
  beatsPerBar (after n e) = beatsPerBar e /\
  increaseAmount (after n e) = increaseAmount e /\
  increaseIntervalBars (after n e) = increaseIntervalBars e /\
  maxBpm (after n e) = maxBpm e /\
  soundType (after n e) = soundType e /\
  audioContext (after n e) = audioContext e /\
  isPlaying (after n e) = isPlaying e /\
  onBeatCallback (after n e) = onBeatCallback e /\
  onBpmChangeCallback (after n e) = onBpmChangeCallback e.
Proof.
  induction n as [|n IH]; [repeat split|].
  rewrite after_S.
  destruct (nextNote_settings (after n e)) as (-> & -> & -> & -> & -> & -> & -> & _ & -> & ->).
  exact IH.
Qed.

Lemma upcoming_length n e : length (upcoming n e) = n.
Proof.
  revert e. induction n as [|n IH]; intros e; simpl; [reflexivity|].
  now rewrite IH.
Qed.

Lemma upcoming_lookup m n e :
  (n < m)%nat ->
  upcoming m e !! n = Some (currentBeat (after n e), nextNoteTime (after n e)).
Proof.
  revert n e. induction m as [|m IH]; intros n e Hn; [lia|].
  destruct n as [|n]; [reflexivity|].
  simpl. apply IH. lia.
Qed.

Lemma upcoming_app n m e :
  upcoming (n + m) e = upcoming n e ++ upcoming m (after n e).
Proof.
  revert e. induction n as [|n IH]; intros e; [reflexivity|].
  simpl. now rewrite IH.
Qed.

Lemma notifications_app n m e :
  notifications (n + m) e = notifications n e ++ notifications m (after n e).
Proof.
  revert e. induction n as [|n IH]; intros e; [reflexivity|].
  simpl. rewrite IH. now rewrite app_assoc.
Qed.

(** ** Beat index *)

Lemma beat_after e n :
  1 <= beatsPerBar e ->
  0 <= currentBeat e < beatsPerBar e ->
  currentBeat (after n e) = (currentBeat e + Z.of_nat n) mod beatsPerBar e.
Proof.
  intros Hb Hc. induction n as [|n IH].
  - simpl. rewrite Z.add_0_r. symmetry. apply Z.mod_small. exact Hc.
  - rewrite after_S, nextNote_beat, IH.
    destruct (after_settings n e) as (-> & _).
    set (B := beatsPerBar e) in *. set (c := currentBeat e) in *.
    assert (Hm : 0 <= (c + Z.of_nat n) mod B < B) by (apply Z.mod_pos_bound; lia).
    replace (c + Z.of_nat (S n)) with ((c + Z.of_nat n) + 1) by lia.
    rewrite <- (Zplus_mod_idemp_l (c + Z.of_nat n) 1 B).
    destruct (Z.eqb_spec ((c + Z.of_nat n) mod B + 1) B) as [E|E].
    + rewrite E. symmetry. apply Z_mod_same_full.
    + symmetry. apply Z.mod_small. lia.
Qed.

(** ** Lowering [beatsPerBar] below the cursor *)

Lemma escaped_step e :
  beatsPerBar e <= currentBeat e ->
  let e' := fst (nextNote e) in
  currentBeat e' = currentBeat e + 1 /\ barCount e' = barCount e /\
  bpm e' = bpm e /\ snd (nextNote e) = [].
Proof.
  intros H. simpl.
  assert (E : (currentBeat e + 1 =? beatsPerBar e) = false) by (apply Z.eqb_neq; lia).
  rewrite nextNote_beat, nextNote_bar, nextNote_bpm, nextNote_effects.
  unfold ramp_due. rewrite E. simpl. repeat split.
Qed.

(** C10: bar completion is the equality test [currentBeat === beatsPerBar]
    after the increment.  Once [setSettings] lowers [beatsPerBar] to a value
    at most the current beat index, every later advance only increments the
    beat index: it is never reset, the bar count and the tempo stay as they
    are, and no tempo change is notified. *)
Theorem lowered_beatsPerBar_never_completes_a_bar
    e (bpm' : Q) (beatsPerBar' : Z) (increaseAmount' : Q)
    (increaseIntervalBars' : Z) (maxBpm' : Q) (n : nat) :
  beatsPerBar' <= currentBeat e ->
  let e' := setSettings bpm' beatsPerBar' increaseAmount' increaseIntervalBars' maxBpm' e in
  currentBeat (after n e') = currentBeat e + Z.of_nat n /\
  barCount (after n e') = barCount e /\
  bpm (after n e') = bpm' /\
  notifications n e' = [].
Proof.
  intros H e'.
  assert (Hs : beatsPerBar e' = beatsPerBar') by reflexivity.
  induction n as [|n (IHc & IHb & IHt & IHn)].
  - simpl. repeat split. lia.
  - assert (Hle : beatsPerBar (after n e') <= currentBeat (after n e')).
    { destruct (after_settings n e') as (-> & _). lia. }
    destruct (escaped_step _ Hle) as (Ec & Eb & Et & En).
    rewrite after_S, Ec, Eb, Et, IHc, IHb, IHt.
    replace (S n) with (n + 1)%nat by lia.
    rewrite notifications_app, IHn. simpl. rewrite En.
    repeat split. lia.
Qed.

Lemma lowered_beatsPerBar_never_completes_a_bar_witness :
  currentBeat (after 10 (setSettings 80 2 5 2 90 trainer_bar_end)) = 3 + Z.of_nat 10 /\
  barCount (after 10 (setSettings 80 2 5 2 90 trainer_bar_end)) = 1 /\
  bpm (after 10 (setSettings 80 2 5 2 90 trainer_bar_end)) = 80%Q /\
  notifications 10 (setSettings 80 2 5 2 90 trainer_bar_end) = [].
Proof.
  apply (lowered_beatsPerBar_never_completes_a_bar trainer_bar_end 80 2 5 2 90 10).
  vm_compute. discriminate.
Defined.

(** ** Counters and tempo along a run from a fresh cursor *)

Lemma succ_div_mod a d :
  0 <= a -> 1 <= d ->
  (a mod d + 1 = d -> (a + 1) mod d = 0 /\ (a + 1) / d = a / d + 1) /\
  (a mod d + 1 <> d -> (a + 1) mod d = a mod d + 1 /\ (a + 1) / d = a / d).
Proof.
  intros Ha Hd.
  pose proof (Z.div_mod a d ltac:(lia)) as E.
  pose proof (Z.mod_pos_bound a d ltac:(lia)) as B.
  split; intros H.
  - assert (E1 : a + 1 = (a / d + 1) * d + 0) by nia.
    split.
    + rewrite E1, Z.add_0_r. apply Z_mod_mult.
    + symmetry. apply (Z.div_unique_pos (a + 1) d (a / d + 1) 0); lia.
  - assert (E1 : a + 1 = d * (a / d) + (a mod d + 1)) by lia.
    split.
    + symmetry. apply (Z.mod_unique_pos (a + 1) d (a / d) (a mod d + 1)); lia.
    + symmetry. apply (Z.div_unique_pos (a + 1) d (a / d) (a mod d + 1)); lia.
Qed.

Lemma rem_zero_iff_mod a d : d <> 0 -> (Z.rem a d = 0 <-> a mod d = 0).
Proof.
  intros Hd. rewrite Z.rem_divide, Z.mod_divide by assumption. reflexivity.
Qed.

Section FreshCursor.
Variable e : Engine.
Hypothesis fresh_beat : currentBeat e = 0.
Hypothesis fresh_bar : barCount e = 0.
Hypothesis bar_length : 1 <= beatsPerBar e.

Lemma fresh_counters n :
  currentBeat (after n e) = Z.of_nat n mod beatsPerBar e /\
  barCount (after n e) = Z.of_nat n / beatsPerBar e.
Proof.
  induction n as [|n [IHc IHb]].
  - simpl. rewrite fresh_beat, fresh_bar, Z.mod_0_l, Z.div_0_l by lia. split; reflexivity.
  - rewrite after_S, nextNote_beat, nextNote_bar, IHc, IHb.
    destruct (after_settings n e) as (-> & _).
    replace (Z.of_nat (S n)) with (Z.of_nat n + 1) by lia.
    destruct (succ_div_mod (Z.of_nat n) (beatsPerBar e)) as [Hy Hn]; [lia | lia |].
    destruct (Z.eqb_spec (Z.of_nat n mod beatsPerBar e + 1) (beatsPerBar e)) as [E|E].
    + destruct (Hy E) as [-> ->]. split; reflexivity.
    + destruct (Hn E) as [-> ->]. split; reflexivity.
Qed.

Lemma ramp_due_steps n :
  1 <= increaseIntervalBars e ->
  (0 < increaseAmount e)%Q ->
  if ramp_due (after n e) then ramp_steps e (S n) = ramp_steps e n + 1
  else ramp_steps e (S n) = ramp_steps e n.
Proof.
  intros Hi Hr. unfold ramp_steps, ramp_due.
  destruct (fresh_counters n) as [-> ->].
  destruct (after_settings n e) as (-> & -> & -> & _).
  replace (Z.of_nat (S n)) with (Z.of_nat n + 1) by lia.
  destruct (succ_div_mod (Z.of_nat n) (beatsPerBar e)) as [Hy Hn]; [lia | lia |].
  assert (Hb : 0 <= Z.of_nat n / beatsPerBar e) by (apply Z.div_pos; lia).
  destruct (succ_div_mod (Z.of_nat n / beatsPerBar e) (increaseIntervalBars e))
    as [Iy In]; [lia | lia |].
  pose proof (Z.mod_pos_bound (Z.of_nat n / beatsPerBar e) (increaseIntervalBars e)
                ltac:(lia)) as Bm.
  apply Qltb_true in Hr. rewrite Hr.
  assert (Hpos : (0 <? increaseIntervalBars e) = true) by (apply Z.ltb_lt; lia).
  rewrite Hpos.
  destruct (Z.eqb_spec (Z.of_nat n mod beatsPerBar e + 1) (beatsPerBar e)) as [E|E]; simpl.
  - destruct (Hy E) as [_ ->].
    destruct (Z.eqb_spec (Z.rem (Z.of_nat n / beatsPerBar e + 1) (increaseIntervalBars e)) 0)
      as [R|R].
    + apply rem_zero_iff_mod in R; [|lia].
      destruct (Z.eq_dec (Z.of_nat n / beatsPerBar e mod increaseIntervalBars e + 1)
                  (increaseIntervalBars e)) as [F|F].
      * now destruct (Iy F) as [_ ->].
      * destruct (In F) as [G _]. lia.
    + destruct (Z.eq_dec (Z.of_nat n / beatsPerBar e mod increaseIntervalBars e + 1)
                  (increaseIntervalBars e)) as [F|F].
      * destruct (Iy F) as [G _]. apply rem_zero_iff_mod in G; [|lia]. contradiction.
      * now destruct (In F) as [_ ->].
  - now destruct (Hn E) as [_ ->].
Qed.

Lemma steps_nonneg n : 1 <= increaseIntervalBars e -> 0 <= ramp_steps e n.
Proof.
  intros Hi. unfold ramp_steps. apply Z.div_pos; [apply Z.div_pos|]; lia.
Qed.

Lemma steps_at_boundary k :
  1 <= increaseIntervalBars e ->
  ramp_steps e (k * Z.to_nat (increaseIntervalBars e * beatsPerBar e)) = Z.of_nat k.
Proof.
  intros Hi. unfold ramp_steps.
  rewrite Nat2Z.inj_mul, Z2Nat.id by nia.
  rewrite Z.div_div by lia.
  rewrite (Z.mul_comm (beatsPerBar e)). apply Z.div_mul. nia.
Qed.

Lemma nextNote_bpm_eq (s : Engine) :
  (bpm (fst (nextNote s)) == if ramp_due s then candidate s else bpm s)%Q.
Proof.
  rewrite nextNote_bpm. destruct (ramp_due s); simpl; [|reflexivity].
  destruct (Qeq_bool (candidate s) (bpm s)) eqn:E; simpl; [|reflexivity].
  apply Qeq_bool_iff in E. now symmetry.
Qed.

Lemma ramp_sequence_step (t r c : Q) (j : nat) (b : Q) :
  (0 <= r)%Q ->
  (b == ramp_sequence t r c j)%Q ->
  (Qmin (b + r) c == ramp_sequence t r c (S j))%Q.
Proof.
  intros Hr Hb. unfold ramp_sequence in *.
  rewrite Nat2Z.inj_succ. unfold Z.succ.
  rewrite inject_Z_plus. change (inject_Z 1) with 1%Q.
  destruct j as [|j].
  - change (inject_Z (Z.of_nat 0)) with 0%Q.
    destruct (Q.min_spec (b + r) c) as [[H1 ->]|[H1 ->]];
      destruct (Q.min_spec (t + (0 + 1) * r) c) as [[H2 ->]|[H2 ->]]; lra.
  - set (x := inject_Z (Z.of_nat (S j))) in *.
    destruct (Q.min_spec (t + x * r) c) as [[H3 E3]|[H3 E3]]; rewrite E3 in Hb;
      destruct (Q.min_spec (b + r) c) as [[H1 ->]|[H1 ->]];
      destruct (Q.min_spec (t + (x + 1) * r) c) as [[H2 ->]|[H2 ->]]; lra.
Qed.

Lemma tempo_after n :
  1 <= increaseIntervalBars e ->
  (0 < increaseAmount e)%Q ->
  (bpm (after n e) ==
   ramp_sequence (bpm e) (increaseAmount e) (maxBpm e) (Z.to_nat (ramp_steps e n)))%Q.
Proof.
  intros Hi Hr. induction n as [|n IH].
  - unfold ramp_steps. simpl. reflexivity.
  - rewrite after_S, nextNote_bpm_eq.
    pose proof (ramp_due_steps n Hi Hr) as Hs.
    pose proof (steps_nonneg n Hi) as Hn.
    destruct (ramp_due (after n e)).
    + rewrite Hs, Z2Nat.inj_add by lia. simpl (Z.to_nat 1).
      rewrite Nat.add_1_r. unfold candidate.
      destruct (after_settings n e) as (_ & -> & _ & -> & _).
      apply ramp_sequence_step; [lra | exact IH].
    + rewrite Hs. exact IH.
Qed.
End FreshCursor.

Lemma no_ramp_before e n :
  currentBeat e = 0 -> barCount e = 0 -> 1 <= beatsPerBar e ->
  1 <= increaseIntervalBars e -> (0 < increaseAmount e)%Q ->
  ramp_steps e n = 0 ->
  bpm (after n e) = bpm e /\ notifications n e = [].
Proof.
  intros Hc Hb Hbar Hi Hr. induction n as [|n IH]; intros Hs; [split; reflexivity|].
  pose proof (ramp_due_steps e Hc Hb Hbar n Hi Hr) as Hd.
  pose proof (steps_nonneg e Hbar n Hi) as Hn.
  destruct (ramp_due (after n e)) eqn:D; [lia|].
  destruct IH as [IHt IHn]; [lia|].
  split.
  - rewrite after_S, nextNote_bpm, D. simpl. exact IHt.
  - replace (S n) with (n + 1)%nat by lia.
    rewrite notifications_app, IHn. simpl.
    rewrite nextNote_effects, D. reflexivity.
Qed.

(** C2: the tempo rule applied by an advance that completes a bar, on the
    bar count after its increment: no change when the ramp amount or the ramp
    interval is 0; otherwise, when the bar count is a multiple of the
    interval, the tempo becomes [min (tempo + rampAmount) tempoCeiling] and
    the change is notified exactly when that value differs from the old
    tempo (a tempo above the ceiling is lowered to the ceiling, and notified);
    from a fresh cursor the first ramp happens on completing bar
    [rampIntervalBars], not before. *)
Theorem tempo_rule_at_bar_completion :
  (forall e,
     currentBeat e + 1 = beatsPerBar e ->
     (0 <= increaseAmount e)%Q -> 0 <= increaseIntervalBars e ->
     onBpmChangeCallback e = true ->
     let e' := fst (nextNote e) in
     let fx := snd (nextNote e) in
     let newBpm := Qmin (bpm e + increaseAmount e) (maxBpm e) in
     barCount e' = barCount e + 1 /\
     ((increaseAmount e == 0)%Q \/ increaseIntervalBars e = 0 ->
        bpm e' = bpm e /\ fx = []) /\
     (~ (increaseAmount e == 0)%Q -> increaseIntervalBars e <> 0 ->
        ((barCount e + 1) mod increaseIntervalBars e = 0 ->
           (bpm e' == newBpm)%Q /\
           (~ (newBpm == bpm e)%Q -> bpm e' = newBpm /\ fx = [BpmChanged newBpm]) /\
           ((newBpm == bpm e)%Q -> bpm e' = bpm e /\ fx = []) /\
           ((maxBpm e < bpm e)%Q ->
              bpm e' = maxBpm e /\ (bpm e' < bpm e)%Q /\ fx = [BpmChanged (maxBpm e)])) /\
        ((barCount e + 1) mod increaseIntervalBars e <> 0 ->
           bpm e' = bpm e /\ fx = []))) /\
  (forall e,
     currentBeat e = 0 -> barCount e = 0 -> 1 <= beatsPerBar e ->
     1 <= increaseIntervalBars e -> (0 < increaseAmount e)%Q ->
     let first := Z.to_nat (increaseIntervalBars e * beatsPerBar e) in
     (forall n, (n < first)%nat ->
        barCount (after n e) < increaseIntervalBars e /\
        bpm (after n e) = bpm e /\ notifications n e = []) /\
     barCount (after first e) = increaseIntervalBars e /\
     (bpm (after first e) == Qmin (bpm e + increaseAmount e) (maxBpm e))%Q).
Proof.
  split.
  - intros e Hbar Hr Hi Hcb e' fx newBpm. subst e' fx newBpm.
    assert (Eb : (currentBeat e + 1 =? beatsPerBar e) = true) by now apply Z.eqb_eq.
    rewrite nextNote_bar, nextNote_bpm, nextNote_effects, Eb, Hcb.
    unfold ramp_due, candidate. rewrite Eb. simpl.
    split; [reflexivity|]. split.
    + intros [Hz|Hz].
      * assert (E : Qltb 0 (increaseAmount e) = false) by (apply Qltb_false; lra).
        rewrite E. simpl. split; reflexivity.
      * rewrite Hz. rewrite andb_false_r. simpl. split; reflexivity.
    + intros Hnz Hinz.
      assert (E : Qltb 0 (increaseAmount e) = true).
      { apply Qltb_true. destruct (Qlt_le_dec 0 (increaseAmount e)) as [L|L]; [exact L|].
        exfalso. apply Hnz. lra. }
      assert (E2 : (0 <? increaseIntervalBars e) = true) by (apply Z.ltb_lt; lia).
      rewrite E, E2. simpl. split.
      * intros Hm. apply rem_zero_iff_mod in Hm; [|exact Hinz].
        rewrite Hm. simpl.
        destruct (Qeq_bool (Qmin (bpm e + increaseAmount e) (maxBpm e)) (bpm e)) eqn:Q; simpl.
        -- apply Qeq_bool_iff in Q. split; [now symmetry|]. split; [intros N; contradiction|].
           split; [intros _; split; reflexivity|].
           intros Hgt. exfalso.
           destruct (Q.min_spec (bpm e + increaseAmount e) (maxBpm e)) as [[H1 H2]|[H1 H2]];
             rewrite H2 in Q; lra.
        -- assert (N : ~ (Qmin (bpm e + increaseAmount e) (maxBpm e) == bpm e)%Q).
           { intros N. apply Qeq_bool_iff in N. congruence. }
           split; [reflexivity|]. split; [intros _; split; reflexivity|].
           split; [intros N'; contradiction|].
           intros Hgt.
           assert (M : Qmin (bpm e + increaseAmount e) (maxBpm e) = maxBpm e).
           { apply Qmin_right. lra. }
           rewrite M. repeat split. exact Hgt.
      * intros Hm.
        destruct (Z.eqb_spec (Z.rem (barCount e + 1) (increaseIntervalBars e)) 0) as [R|R].
        -- apply rem_zero_iff_mod in R; [contradiction | exact Hinz].
        -- simpl. split; reflexivity.
  - intros e Hc Hb Hbar Hi Hr first. subst first.
    set (I := increaseIntervalBars e) in *. set (B := beatsPerBar e) in *.
    split; [|split].
    + intros n Hn.
      assert (Hz : Z.of_nat n < I * B) by (apply Nat2Z.inj_lt in Hn; rewrite Z2Nat.id in Hn; nia).
      assert (Hd : 0 <= Z.of_nat n / B < I).
      { split; [apply Z.div_pos; lia|]. apply Z.div_lt_upper_bound; lia. }
      destruct (fresh_counters e Hc Hb Hbar n) as [_ ->]. fold B.
      split; [lia|].
      apply no_ramp_before; try assumption.
      unfold ramp_steps. fold B I. apply Z.div_small. exact Hd.
    + destruct (fresh_counters e Hc Hb Hbar (Z.to_nat (I * B))) as [_ ->].
      rewrite Z2Nat.id by nia. fold B. apply Z.div_mul. lia.
    + rewrite (tempo_after e Hc Hb Hbar _ Hi Hr).
      pose proof (steps_at_boundary e Hbar 1 Hi) as S1.
      rewrite Nat.mul_1_l in S1. fold I B in S1. rewrite S1.
      simpl. change (inject_Z 1) with 1%Q.
      destruct (Q.min_spec (bpm e + 1 * increaseAmount e) (maxBpm e)) as [[H1 ->]|[H1 ->]];
        destruct (Q.min_spec (bpm e + increaseAmount e) (maxBpm e)) as [[H2 ->]|[H2 ->]]; lra.
Qed.

Lemma tempo_rule_at_bar_completion_witness :
  bpm (fst (nextNote trainer_bar_end)) = Qmin (80 + 5) 90 /\
  snd (nextNote trainer_bar_end) = [BpmChanged (Qmin (80 + 5) 90)] /\
  bpm (fst (nextNote above_ceiling)) = 90%Q /\
  barCount (after 8 trainer) = 2.
Proof.
  destruct tempo_rule_at_bar_completion as [rule first].
  assert (H1 : bpm (fst (nextNote trainer_bar_end)) = Qmin (80 + 5) 90 /\
               snd (nextNote trainer_bar_end) = [BpmChanged (Qmin (80 + 5) 90)]).
  { destruct (rule trainer_bar_end) as (_ & _ & R);
      [reflexivity | vm_compute; discriminate | vm_compute; discriminate | reflexivity |].
    destruct R as [R _]; [vm_compute; discriminate | vm_compute; discriminate |].
    destruct R as (_ & R & _); [reflexivity|].
    apply R. vm_compute. discriminate. }
  destruct H1 as [H1 H2]. split; [exact H1|]. split; [exact H2|]. split.
  - destruct (rule above_ceiling) as (_ & _ & R);
      [reflexivity | vm_compute; discriminate | vm_compute; discriminate | reflexivity |].
    destruct R as [R _]; [vm_compute; discriminate | vm_compute; discriminate |].
    destruct R as (_ & _ & _ & R); [reflexivity|].
    apply R. reflexivity.
  - destruct (first trainer) as (_ & R & _);
      [reflexivity | reflexivity | vm_compute; discriminate | vm_compute; discriminate
      | reflexivity |].
    exact R.
Defined.

(** ** The ramp sequence *)

Lemma at_ceiling_step e :
  (bpm e == maxBpm e)%Q -> (0 <= increaseAmount e)%Q ->
  bpm (fst (nextNote e)) = bpm e /\ snd (nextNote e) = [].
Proof.
  intros Hc Hr.
  assert (E : Qeq_bool (candidate e) (bpm e) = true).
  { apply Qeq_bool_iff. unfold candidate.
    destruct (Q.min_spec (bpm e + increaseAmount e) (maxBpm e)) as [[H1 ->]|[H1 ->]]; lra. }
  rewrite nextNote_bpm, nextNote_effects, E.
  rewrite andb_false_r. simpl. split; reflexivity.
Qed.

Lemma at_ceiling_stays e n :
  (bpm e == maxBpm e)%Q -> (0 <= increaseAmount e)%Q ->
  bpm (after n e) = bpm e /\ notifications n e = [].
Proof.
  intros Hc Hr. induction n as [|n [IHt IHn]]; [split; reflexivity|].
  assert (Hc' : (bpm (after n e) == maxBpm (after n e))%Q).
  { destruct (after_settings n e) as (_ & _ & _ & -> & _). now rewrite IHt. }
  assert (Hr' : (0 <= increaseAmount (after n e))%Q).
  { now destruct (after_settings n e) as (_ & -> & _). }
  destruct (at_ceiling_step _ Hc' Hr') as [St Sn].
  split.
  - now rewrite after_S, St.
  - replace (S n) with (n + 1)%nat by lia.
    rewrite notifications_app, IHn. simpl. now rewrite Sn.
Qed.

Lemma ramp_sequence_monotone (t r c : Q) (k : nat) :
  (0 <= r)%Q -> (t <= c)%Q ->
  (ramp_sequence t r c k <= ramp_sequence t r c (S k))%Q /\
  (ramp_sequence t r c k <= c)%Q.
Proof.
  intros Hr Hc. unfold ramp_sequence.
  rewrite Nat2Z.inj_succ. unfold Z.succ.
  rewrite inject_Z_plus. change (inject_Z 1) with 1%Q.
  assert (Hk : (0 <= inject_Z (Z.of_nat k))%Q).
  { change 0%Q with (inject_Z 0). rewrite <- Zle_Qle. lia. }
  set (x := inject_Z (Z.of_nat k)) in *.
  assert (Hx : (0 <= x * r)%Q) by (apply Qmult_le_0_compat; assumption).
  destruct (Q.min_spec (t + (x + 1) * r) c) as [[H2 ->]|[H2 ->]];
    destruct k as [|k];
    try (destruct (Q.min_spec (t + x * r) c) as [[H3 ->]|[H3 ->]]);
    split; try lra.
Qed.

(** C3 (amended): from a fresh cursor, with [beatsPerBar >= 1], a ramp
    interval of at least one bar and [rampAmount > 0], the tempo in force at
    the bar boundaries [k * rampIntervalBars] is the sequence tempo,
    [min (tempo + r) c], [min (tempo + 2 r) c], ...; when the starting tempo
    does not exceed the ceiling, the sequence is non-decreasing and bounded
    above by the ceiling; and once the tempo equals the ceiling every later
    advance keeps it there and notifies no tempo change. *)
Theorem ramp_tempo_sequence e (k : nat) :
  currentBeat e = 0 -> barCount e = 0 -> 1 <= beatsPerBar e ->
  1 <= increaseIntervalBars e -> (0 < increaseAmount e)%Q ->
  (tempo_at_boundary e k ==
   ramp_sequence (bpm e) (increaseAmount e) (maxBpm e) k)%Q /\
  ((bpm e <= maxBpm e)%Q ->
     (tempo_at_boundary e k <= tempo_at_boundary e (S k))%Q /\
     (tempo_at_boundary e k <= maxBpm e)%Q) /\
  (forall m, (bpm (after m e) == maxBpm e)%Q ->
     forall n, bpm (after n (after m e)) = bpm (after m e) /\
               notifications n (after m e) = []).
Proof.
  intros Hc Hb Hbar Hi Hr.
  assert (F : forall j, (tempo_at_boundary e j ==
                         ramp_sequence (bpm e) (increaseAmount e) (maxBpm e) j)%Q).
  { intros j. unfold tempo_at_boundary.
    rewrite (tempo_after e Hc Hb Hbar _ Hi Hr).
    rewrite (steps_at_boundary e Hbar j Hi), Nat2Z.id. reflexivity. }
  split; [apply F|]. split.
  - intros Hle. rewrite !F.
    apply ramp_sequence_monotone; [lra | exact Hle].
  - intros m Hm n. apply at_ceiling_stays.
    + now destruct (after_settings m e) as (_ & _ & _ & -> & _).
    + destruct (after_settings m e) as (_ & -> & _). lra.
Qed.

Lemma ramp_tempo_sequence_witness :
  (tempo_at_boundary trainer 3 == 90)%Q /\
  (tempo_at_boundary trainer 1 <= tempo_at_boundary trainer 2)%Q.
Proof.
  destruct (ramp_tempo_sequence trainer 3) as (F & _);
    [reflexivity | reflexivity | vm_compute; discriminate | vm_compute; discriminate
    | reflexivity |].
  split; [rewrite F; reflexivity|].
  destruct (ramp_tempo_sequence trainer 1) as (_ & M & _);
    [reflexivity | reflexivity | vm_compute; discriminate | vm_compute; discriminate
    | reflexivity |].
  apply M. vm_compute. discriminate.
Defined.

(** The scenario of the specification: 80 bpm, 4 beats per bar, +5 every
    bar, ceiling 200.  The tempo reaches 200 after 24 bars, is 200 after 40
    bars, and the bars that follow notify no change. *)
Example ramp_scenario_80_to_200 :
  (tempo_at_boundary steady_climb 23 == 195)%Q /\
  (tempo_at_boundary steady_climb 24 == 200)%Q /\
  (tempo_at_boundary steady_climb 40 == 200)%Q /\
  notifications 40 (after 160 steady_climb) = [].
Proof. repeat split; vm_compute; reflexivity. Qed.

(** C3 as stated fails when the starting tempo is above the ceiling: the
    tempo at the first boundary (100) exceeds the ceiling (90), and the tempo
    at the next boundary (90) is lower. *)
Lemma ramp_sequence_above_ceiling_decreases :
  (1 <= beatsPerBar above_ceiling /\ (0 < increaseAmount above_ceiling)%Q) /\
  ~ ((tempo_at_boundary above_ceiling 0 <= tempo_at_boundary above_ceiling 1)%Q /\
     (tempo_at_boundary above_ceiling 0 <= maxBpm above_ceiling)%Q).
Proof.
  split; [split; [vm_compute; discriminate | reflexivity]|].
  vm_compute. intros [H _]. apply H. reflexivity.
Qed.

(** ** Start and stop *)

Lemma horizon_not_before_lead_in (now : Q) :
  Qltb (now + 0.1) (now + scheduleAheadTime) = false.
Proof. apply Qltb_false. unfold scheduleAheadTime. apply Qle_refl. Qed.

(** C5: [stop()] followed by [start()] gives a fresh cursor whatever the
    engine was doing before -- beat index 0, bar count 0 and next event time
    [audioContext.currentTime + 0.1], with nothing scheduled yet -- and the
    resulting engine depends on the previous one only through its settings
    and registered callbacks; [start()] on a running engine changes nothing. *)
Theorem stop_then_start_resets (raises : Z -> Q -> bool) (fuel : nat)
    (now : Q) (suspended : bool) (e : Engine) :
  (exists fx,
     start raises fuel now suspended (fst (stop e)) =
       Returned
         (mkEngine true true (now + 0.1) 0 0 true
            (onBeatCallback e) (onBpmChangeCallback e) (bpm e) (beatsPerBar e)
            (soundType e) (increaseAmount e) (increaseIntervalBars e) (maxBpm e),
          fx) /\
     scheduled fx = []) /\
  (isPlaying e = true -> start raises fuel now suspended e = Returned (e, [])).
Proof.
  split.
  - destruct e as [ctx playing t b bars timer onBeat onBpm tempo perBar snd amount every ceiling].
    unfold stop, start, init, scheduler. simpl.
    destruct ctx; simpl;
      destruct fuel; simpl; rewrite horizon_not_before_lead_in; simpl;
      (eexists; split; [reflexivity|]); destruct suspended; reflexivity.
  - intros H. unfold start. now rewrite H.
Qed.

Lemma stop_then_start_resets_witness :
  start (fun _ _ => false) 0 (7 # 2) false trainer_bar_end = Returned (trainer_bar_end, []).
Proof.
  apply (stop_then_start_resets (fun _ _ => false) 0 (7 # 2) false trainer_bar_end).
  reflexivity.
Defined.

(** ** Accent *)

(** C6 (amended): for every sound variant other than the drum set, the sound
    of beat 0 differs from the sound of every other beat index, its gain being
    strictly higher; the drum set distinguishes beat 0 from every beat index
    except 2, which gets exactly the kick and hi-hats of beat 0. *)
Theorem accent_distinguished (s : SoundType) (beat : Z) (time bpm : Q) :
  beat <> 0 ->
  (s <> drumset \/ beat <> 2 ->
     same_sound (play 0 time s bpm) (play beat time s bpm) = false) /\
  (s <> drumset ->
     exists accent other,
       play 0 time s bpm = [accent] /\ play beat time s bpm = [other] /\
       (gain other < gain accent)%Q) /\
  (s = drumset -> beat = 2 -> play beat time s bpm = play 0 time s bpm).
Proof.
  intros Hb. apply Z.eqb_neq in Hb. split; [|split].
  - intros Hs.
    destruct s; unfold play, playBeep, playClick, playWoodblock, playCowbell, playKick,
      playSnare, playDrumset; rewrite ?Hb; try reflexivity.
    destruct Hs as [Hs|Hs]; [congruence|]. apply Z.eqb_neq in Hs. rewrite Hs.
    simpl orb. destruct ((beat =? 1) || (beat =? 3)); reflexivity.
  - intros Hs.
    destruct s; try congruence;
      unfold play, playBeep, playClick, playWoodblock, playCowbell, playKick, playSnare;
      rewrite Hb; simpl; eexists; eexists;
      (split; [reflexivity|]); (split; [reflexivity|]); reflexivity.
  - intros -> ->. reflexivity.
Qed.

Lemma accent_distinguished_witness :
  same_sound (play 0 (1 # 10) cowbell 120) (play 3 (1 # 10) cowbell 120) = false /\
  same_sound (play 0 (1 # 10) drumset 120) (play 1 (1 # 10) drumset 120) = false.
Proof.
  split.
  - apply (accent_distinguished cowbell 3 (1 # 10) 120); [discriminate|].
    left. discriminate.
  - apply (accent_distinguished drumset 1 (1 # 10) 120); [discriminate|].
    right. discriminate.
Defined.

(** C6 as stated fails for the drum set: beat 2 gets exactly the sound of
    beat 0. *)
Lemma drumset_beat_2_sounds_like_beat_0 :
  same_sound (play 0 (1 # 10) drumset 120) (play 2 (1 # 10) drumset 120) = true /\
  play 0 (1 # 10) drumset 120 = play 2 (1 # 10) drumset 120.
Proof. split; reflexivity. Qed.

(** ** The scheduler loop *)

Lemma scheduled_app fx1 fx2 : scheduled (fx1 ++ fx2) = scheduled fx1 ++ scheduled fx2.
Proof.
  induction fx1 as [|x fx1 IH]; [reflexivity|].
  destruct x; simpl; now rewrite IH.
Qed.

Lemma rearmed_app fx1 fx2 : rearmed (fx1 ++ fx2) = rearmed fx1 || rearmed fx2.
Proof. unfold rearmed. apply existsb_app. Qed.

Lemma nextNote_quiet e :
  scheduled (snd (nextNote e)) = [] /\ rearmed (snd (nextNote e)) = false.
Proof.
  rewrite nextNote_effects.
  destruct (ramp_due e && negb (Qeq_bool (candidate e) (bpm e)) && onBpmChangeCallback e);
    split; reflexivity.
Qed.

Section Loop.
Variable raises : Z -> Q -> bool.
Variable now : Q.

Lemma scheduleNote_returns e beat time :
  audioContext e = true -> raises beat time = false ->
  exists fx, scheduleNote raises beat time now e = Returned fx /\
             scheduled fx = [(beat, time)] /\ rearmed fx = false.
Proof.
  intros Hc Hr. unfold scheduleNote. rewrite Hc, Hr. simpl.
  eexists. split; [reflexivity|].
  destruct (onBeatCallback e); split; reflexivity.
Qed.

Lemma scheduleNote_throws e beat time :
  audioContext e = true -> raises beat time = true ->
  exists fx, scheduleNote raises beat time now e = Threw fx /\
             scheduled fx = [] /\ rearmed fx = false.
Proof.
  intros Hc Hr. unfold scheduleNote. rewrite Hc, Hr. simpl.
  eexists. split; [reflexivity|].
  destruct (onBeatCallback e); split; reflexivity.
Qed.

Lemma scheduler_while_done fuel e :
  (now + scheduleAheadTime <= nextNoteTime e)%Q ->
  scheduler_while raises fuel now e = Returned (e, []).
Proof.
  intros H. apply Qltb_false in H. destruct fuel; simpl; now rewrite H.
Qed.

(** One iteration of the loop on a due beat that the backend accepts. *)
Lemma scheduler_while_step fuel e :
  audioContext e = true ->
  (nextNoteTime e < now + scheduleAheadTime)%Q ->
  raises (currentBeat e) (nextNoteTime e) = false ->
  exists fx,
    scheduler_while raises (S fuel) now e =
      prepend fx (scheduler_while raises fuel now (fst (nextNote e))) /\
    scheduled fx = [(currentBeat e, nextNoteTime e)] /\ rearmed fx = false.
Proof.
  intros Hc Hd Hr. apply Qltb_true in Hd.
  destruct (scheduleNote_returns e _ _ Hc Hr) as (fx1 & E1 & S1 & R1).
  exists (fx1 ++ snd (nextNote e)).
  destruct (nextNote_quiet e) as [S2 R2].
  split; [|split].
  - simpl. rewrite Hd, E1. now destruct (nextNote e).
  - now rewrite scheduled_app, S1, S2.
  - now rewrite rearmed_app, R1, R2.
Qed.

Lemma prepend_prepend fx1 fx2 o :
  prepend fx1 (prepend fx2 o) = prepend (fx1 ++ fx2) o.
Proof. destruct o as [[e fx]|[e fx]|]; simpl; now rewrite ?app_assoc. Qed.

(** [n] due beats in a row that the backend accepts: the loop schedules
    exactly those and carries on from the cursor after them. *)
Lemma scheduler_while_unroll n : forall fuel e,
  audioContext e = true ->
  (forall k, (k < n)%nat ->
     (nextNoteTime (after k e) < now + scheduleAheadTime)%Q /\
     raises (currentBeat (after k e)) (nextNoteTime (after k e)) = false) ->
  exists fx,
    scheduler_while raises (n + fuel) now e =
      prepend fx (scheduler_while raises fuel now (after n e)) /\
    scheduled fx = upcoming n e /\ rearmed fx = false.
Proof.
  induction n as [|n IH]; intros fuel e Hc Hk.
  - exists []. simpl. split; [|split; reflexivity].
    now destruct (scheduler_while raises fuel now e) as [[? ?]|[? ?]|].
  - destruct (Hk 0%nat ltac:(lia)) as [Hd Hr]. simpl in Hd, Hr.
    destruct (scheduler_while_step (n + fuel) e Hc Hd Hr) as (fx1 & E1 & S1 & R1).
    destruct (IH fuel (fst (nextNote e))) as (fx2 & E2 & S2 & R2).
    { now destruct (nextNote_settings e) as (_ & _ & _ & _ & _ & -> & _). }
    { intros k Hlt. apply (Hk (S k)). lia. }
    exists (fx1 ++ fx2). split; [|split].
    + change (S n + fuel)%nat with (S (n + fuel)).
      rewrite E1, E2, prepend_prepend. reflexivity.
    + rewrite scheduled_app, S1, S2. reflexivity.
    + now rewrite rearmed_app, R1, R2.
Qed.

(** What the loop has done when it returns, on a backend that never
    raises. *)
Lemma scheduler_while_returned fuel : forall e e' fx,
  reliable raises -> audioContext e = true ->
  scheduler_while raises fuel now e = Returned (e', fx) ->
  exists n,
    e' = after n e /\ scheduled fx = upcoming n e /\ rearmed fx = false /\
    (forall k, (k < n)%nat -> (nextNoteTime (after k e) < now + scheduleAheadTime)%Q) /\
    (now + scheduleAheadTime <= nextNoteTime (after n e))%Q.
Proof.
  induction fuel as [|fuel IH]; intros e e' fx Hrel Hc H.
  - simpl in H. destruct (Qltb (nextNoteTime e) (now + scheduleAheadTime)) eqn:T;
      [discriminate|].
    injection H as <- <-. exists 0%nat. apply Qltb_false in T.
    repeat split; try reflexivity; [intros k Hk; lia | exact T].
  - destruct (Qltb (nextNoteTime e) (now + scheduleAheadTime)) eqn:T.
    + apply Qltb_true in T.
      destruct (scheduler_while_step fuel e Hc T (Hrel _ _)) as (fx1 & E1 & S1 & R1).
      rewrite E1 in H.
      destruct (scheduler_while raises fuel now (fst (nextNote e)))
        as [[e2 fx2]|[e2 fx2]|] eqn:W; simpl in H; try discriminate.
      injection H as <- <-.
      destruct (IH _ _ _ Hrel
                  ltac:(now destruct (nextNote_settings e) as (_&_&_&_&_& -> &_)) W)
        as (n & -> & S2 & R2 & Hk & Hn).
      exists (S n). split; [reflexivity|]. split; [|split; [|split]].
      * rewrite scheduled_app, S1, S2. reflexivity.
      * now rewrite rearmed_app, R1, R2.
      * intros [|k] Hlt; [exact T|]. apply Hk. lia.
      * exact Hn.
    + simpl in H. rewrite T in H. injection H as <- <-.
      exists 0%nat. apply Qltb_false in T.
      repeat split; try reflexivity; [intros k Hk; lia | exact T].
Qed.
End Loop.

(** ** A failing sound backend *)

Lemma interrupted_app fx1 fx2 :
  interrupted (fx1 ++ fx2) = interrupted fx1 ++ interrupted fx2.
Proof.
  induction fx1 as [|x fx1 IH]; [reflexivity|].
  destruct x; simpl; now rewrite IH.
Qed.

(** The loop leaves at most one sound incomplete: none when it returns, that
    of the beat under the cursor when an exception leaves it. *)
Lemma scheduler_while_interrupted raises now fuel : forall e,
  match scheduler_while raises fuel now e with
  | Returned (_, fx) => interrupted fx = []
  | Threw (e', fx) => interrupted fx = [(currentBeat e', nextNoteTime e')]
  | OutOfFuel => True
  end.
Proof.
  induction fuel as [|fuel IH]; intros e; simpl.
  - now destruct (Qltb (nextNoteTime e) (now + scheduleAheadTime)).
  - destruct (Qltb (nextNoteTime e) (now + scheduleAheadTime)); [|reflexivity].
    assert (N : match scheduleNote raises (currentBeat e) (nextNoteTime e) now e with
                | Returned fx => interrupted fx = []
                | Threw fx => interrupted fx = [(currentBeat e, nextNoteTime e)]
                | OutOfFuel => True
                end).
    { unfold scheduleNote.
      destruct (audioContext e); [|reflexivity]. simpl.
      destruct (raises (currentBeat e) (nextNoteTime e)); now destruct (onBeatCallback e). }
    destruct (scheduleNote raises (currentBeat e) (nextNoteTime e) now e) as [fx1|fx1|];
      [|exact N|exact I].
    assert (Q2 : interrupted (snd (nextNote e)) = []).
    { rewrite nextNote_effects.
      now destruct (ramp_due e && negb (Qeq_bool (candidate e) (bpm e))
                    && onBpmChangeCallback e). }
    specialize (IH (fst (nextNote e))).
    destruct (nextNote e) as [e1 fx2]. simpl in *.
    destruct (scheduler_while raises fuel now e1) as [[e2 fx3]|[e2 fx3]|]; simpl;
      [| |exact I]; now rewrite !interrupted_app, N, Q2, IH.
Qed.

(** C7 (amended): at non-zero tempo, when building the sound of a due beat
    raises, the exception escapes [scheduler]: the sounds of the due beats
    before the failing one have been scheduled in full, the sound of the
    failing beat is left incomplete (whatever part of it was queued before
    the failing call stays queued), the due beats after it are not scheduled
    at all, the cursor stays on the failing beat, the poll timer is not armed
    again, and no later poll runs. *)
Theorem failing_note_escapes_scheduler
    (raises : Z -> Q -> bool) (now : Q) (e : Engine) (n fuel : nat) (later : list Q) :
  isPlaying e = true -> audioContext e = true ->
  (forall k, (k < n)%nat -> ~ (bpm (after k e) == 0)%Q) ->
  (forall k, (k < n)%nat ->
     (nextNoteTime (after k e) < now + scheduleAheadTime)%Q /\
     raises (currentBeat (after k e)) (nextNoteTime (after k e)) = false) ->
  (nextNoteTime (after n e) < now + scheduleAheadTime)%Q ->
  raises (currentBeat (after n e)) (nextNoteTime (after n e)) = true ->
  exists fx,
    scheduler raises (n + S fuel) now e = Threw (after n e, fx) /\
    scheduled fx = upcoming n e /\
    interrupted fx = [(currentBeat (after n e), nextNoteTime (after n e))] /\
    rearmed fx = false /\
    polls raises (n + S fuel) (now :: later) e = Threw (after n e, fx).
Proof.
  intros Hp Hc _ Hk Hd Hr.
  destruct (scheduler_while_unroll raises now n (S fuel) e Hc Hk) as (fx1 & E1 & S1 & R1).
  assert (Hc' : audioContext (after n e) = true).
  { now destruct (after_settings n e) as (_ & _ & _ & _ & _ & -> & _). }
  destruct (scheduleNote_throws raises now (after n e) _ _ Hc' Hr) as (fx2 & E2 & S2 & R2).
  assert (W : scheduler_while raises (S fuel) now (after n e) = Threw (after n e, fx2)).
  { simpl. apply Qltb_true in Hd. now rewrite Hd, E2. }
  assert (E : scheduler raises (n + S fuel) now e = Threw (after n e, fx1 ++ fx2)).
  { unfold scheduler. rewrite Hp, Hc, E1, W. reflexivity. }
  exists (fx1 ++ fx2). split; [exact E|]. split; [|split; [|split]].
  - rewrite scheduled_app, S1, S2. apply app_nil_r.
  - pose proof (scheduler_while_interrupted raises now (n + S fuel) e) as Q1.
    rewrite E1, W in Q1. exact Q1.
  - now rewrite rearmed_app, R1, R2.
  - simpl polls. now rewrite E.
Qed.

Lemma failing_note_escapes_scheduler_witness :
  exists fx,
    scheduler second_beat_fails 3 1 waltz = Threw (after 1 waltz, fx) /\
    scheduled fx = upcoming 1 waltz /\
    interrupted fx = [(currentBeat (after 1 waltz), nextNoteTime (after 1 waltz))] /\
    rearmed fx = false /\
    polls second_beat_fails 3 [1%Q; 2%Q; 3%Q] waltz = Threw (after 1 waltz, fx).
Proof.
  apply (failing_note_escapes_scheduler second_beat_fails 1 waltz 1 1 [2%Q; 3%Q]).
  - reflexivity.
  - reflexivity.
  - intros k Hk. assert (k = 0%nat) as -> by lia. vm_compute. discriminate.
  - intros k Hk. assert (k = 0%nat) as -> by lia. split; reflexivity.
  - reflexivity.
  - reflexivity.
Defined.

(** C7 as stated fails: with two beats due and a backend that raises on the
    first, the poll throws, completes the sound of neither beat, does not
    reach the second beat and does not arm the timer again, whereas on a
    backend that never raises it returns with both beats scheduled and the
    timer armed. *)
Lemma failing_note_aborts_the_poll :
  (exists fx,
     scheduler downbeat_fails 5 1 waltz = Threw (waltz, fx) /\
     scheduled fx = [] /\ interrupted fx = [(0, 0.1%Q)] /\ rearmed fx = false) /\
  (exists e' fx,
     scheduler never_fails 5 1 waltz = Returned (e', fx) /\
     scheduled fx = [(0, 0.1%Q); (1, (0.1 + 60 / 120)%Q)] /\
     interrupted fx = [] /\ rearmed fx = true).
Proof.
  split.
  - eexists. split; [vm_compute; reflexivity|]. repeat split.
  - eexists. eexists. split; [vm_compute; reflexivity|]. repeat split.
Qed.

(** ** Termination of the loop at positive tempo *)

Lemma tempo_bounded_nextNote B e :
  tempo_bounded B e -> tempo_bounded B (fst (nextNote e)).
Proof.
  intros (H1 & H2 & H3 & H4). unfold tempo_bounded.
  destruct (nextNote_settings e) as (_ & _ & _ & -> & _).
  rewrite nextNote_bpm.
  destruct (ramp_due e && negb (Qeq_bool (candidate e) (bpm e))) eqn:D;
    [|repeat split; assumption].
  apply andb_prop in D as [D _]. unfold ramp_due in D.
  apply andb_prop in D as [D _]. apply andb_prop in D as [D _].
  apply andb_prop in D as [_ D]. apply Qltb_true in D.
  unfold candidate.
  destruct (Q.min_spec (bpm e + increaseAmount e) (maxBpm e)) as [[L ->]|[L ->]];
    repeat split; lra.
Qed.

Lemma tempo_bounded_after B n e : tempo_bounded B e -> tempo_bounded B (after n e).
Proof.
  intros H. induction n as [|n IH]; [exact H|].
  rewrite after_S. now apply tempo_bounded_nextNote.
Qed.

Lemma beat_at_least_one_unit (B b : Q) :
  (0 < b)%Q -> (b <= B)%Q -> (1 <= 60 / b * (B / 60))%Q.
Proof.
  intros Hb HB.
  assert (E : (60 / b * (B / 60) == B / b)%Q) by (field; lra).
  rewrite E. apply Qle_shift_div_l; lra.
Qed.

Lemma nat_above (x : Q) : exists n, forall m, (n <= m)%nat -> (x < inject_Z (Z.of_nat m))%Q.
Proof.
  exists (Z.to_nat (Qfloor x + 1)). intros m Hm.
  apply Qlt_le_trans with (inject_Z (Qfloor x + 1)); [apply Qlt_floor|].
  rewrite <- Zle_Qle. lia.
Qed.

Section Termination.
Variable raises : Z -> Q -> bool.
Hypothesis never : reliable raises.
Variable now : Q.
Variable B : Q.

Lemma scheduler_while_enough_fuel fuel : forall e,
  audioContext e = true -> tempo_bounded B e ->
  ((now + scheduleAheadTime - nextNoteTime e) * (B / 60) < inject_Z (Z.of_nat fuel))%Q ->
  exists r, scheduler_while raises fuel now e = Returned r.
Proof.
  induction fuel as [|fuel IH]; intros e Hc Hb Hf.
  - exists (e, []). apply scheduler_while_done.
    destruct Hb as (H1 & H2 & _).
    assert (HB : (0 < B / 60)%Q) by (apply Qlt_shift_div_l; lra).
    change (inject_Z (Z.of_nat 0)) with 0%Q in Hf.
    destruct (Qlt_le_dec (nextNoteTime e) (now + scheduleAheadTime)) as [L|L]; [|exact L].
    exfalso.
    assert (P : (0 < (now + scheduleAheadTime - nextNoteTime e) * (B / 60))%Q).
    { apply Qmult_lt_0_compat; lra. }
    lra.
  - destruct (Qlt_le_dec (nextNoteTime e) (now + scheduleAheadTime)) as [L|L].
    + destruct (scheduler_while_step raises now fuel e Hc L (never _ _)) as (fx & E & _).
      destruct (IH (fst (nextNote e))) as [[e2 fx2] W].
      * now destruct (nextNote_settings e) as (_ & _ & _ & _ & _ & -> & _).
      * now apply tempo_bounded_nextNote.
      * rewrite nextNote_time.
        destruct Hb as (H1 & H2 & _).
        pose proof (beat_at_least_one_unit B (bpm e) H1 H2) as U.
        rewrite Nat2Z.inj_succ in Hf. unfold Z.succ in Hf.
        rewrite inject_Z_plus in Hf. change (inject_Z 1) with 1%Q in Hf.
        assert (R : ((now + scheduleAheadTime - (nextNoteTime e + 60 / bpm e)) * (B / 60)
                     == (now + scheduleAheadTime - nextNoteTime e) * (B / 60)
                        - 60 / bpm e * (B / 60))%Q) by ring.
        rewrite R. lra.
      * exists (e2, fx ++ fx2). rewrite E, W. reflexivity.
    + exists (e, []). now apply scheduler_while_done.
Qed.

Lemma scheduler_while_total e :
  audioContext e = true -> tempo_bounded B e ->
  exists fuel0, forall fuel, (fuel0 <= fuel)%nat ->
    exists r, scheduler_while raises fuel now e = Returned r.
Proof.
  intros Hc Hb.
  destruct (nat_above ((now + scheduleAheadTime - nextNoteTime e) * (B / 60)))
    as [fuel0 H].
  exists fuel0. intros fuel Hle.
  apply scheduler_while_enough_fuel; auto.
Qed.
End Termination.

(** ** Sequences of polls *)

Lemma nextNote_set_timerID v e :
  nextNote (set_timerID v e) = (set_timerID v (fst (nextNote e)), snd (nextNote e)).
Proof. nextNote_cases. Qed.

Lemma after_set_timerID v n e : after n (set_timerID v e) = set_timerID v (after n e).
Proof.
  revert e. induction n as [|n IH]; intros e; [reflexivity|].
  simpl. rewrite nextNote_set_timerID. simpl. apply IH.
Qed.

Lemma upcoming_set_timerID v n e : upcoming n (set_timerID v e) = upcoming n e.
Proof.
  revert e. induction n as [|n IH]; intros e; [reflexivity|].
  simpl. rewrite nextNote_set_timerID. simpl. now rewrite IH.
Qed.

Lemma set_timerID_idem a b e : set_timerID a (set_timerID b e) = set_timerID a e.
Proof. reflexivity. Qed.

Lemma set_timerID_same e : set_timerID (timerID e) e = e.
Proof. now destruct e. Qed.

Lemma scheduler_while_more_fuel raises now fuel : forall e r fuel',
  scheduler_while raises fuel now e = Returned r -> (fuel <= fuel')%nat ->
  scheduler_while raises fuel' now e = Returned r.
Proof.
  induction fuel as [|fuel IH]; intros e r fuel' H Hle.
  - simpl in H. destruct (Qltb (nextNoteTime e) (now + scheduleAheadTime)) eqn:T;
      [discriminate|].
    destruct fuel'; simpl; now rewrite T.
  - destruct fuel' as [|fuel']; [lia|].
    simpl in *. destruct (Qltb (nextNoteTime e) (now + scheduleAheadTime)); [|exact H].
    destruct (scheduleNote raises (currentBeat e) (nextNoteTime e) now e); try discriminate.
    destruct (nextNote e) as [e1 fx2].
    destruct (scheduler_while raises fuel now e1) as [[e2 fx3]|[e2 fx3]|] eqn:W;
      try discriminate.
    rewrite (IH _ _ fuel' W ltac:(lia)). exact H.
Qed.

Lemma first_not_due_unique (time : nat -> Q) (horizon : Q) (n1 n2 : nat) :
  (forall k, (k < n1)%nat -> (time k < horizon)%Q) -> (horizon <= time n1)%Q ->
  (forall k, (k < n2)%nat -> (time k < horizon)%Q) -> (horizon <= time n2)%Q ->
  n1 = n2.
Proof.
  intros A1 B1 A2 B2.
  destruct (Nat.lt_trichotomy n1 n2) as [L|[E|L]]; [|exact E|].
  - specialize (A2 n1 L). lra.
  - specialize (A1 n2 L). lra.
Qed.

Section Polls.
Variable raises : Z -> Q -> bool.
Hypothesis never : reliable raises.

Lemma scheduler_returned fuel now e e' fx :
  isPlaying e = true -> audioContext e = true ->
  scheduler raises fuel now e = Returned (e', fx) ->
  exists n,
    e' = set_timerID true (after n e) /\ scheduled fx = upcoming n e /\
    (forall k, (k < n)%nat -> (nextNoteTime (after k e) < now + scheduleAheadTime)%Q) /\
    (now + scheduleAheadTime <= nextNoteTime (after n e))%Q.
Proof.
  intros Hp Hc H. unfold scheduler in H. rewrite Hp, Hc in H. simpl in H.
  destruct (scheduler_while raises fuel now e) as [[e1 fx1]|[e1 fx1]|] eqn:W;
    try discriminate.
  injection H as <- <-.
  destruct (scheduler_while_returned raises now fuel e e1 fx1 never Hc W)
    as (n & -> & S1 & _ & Hk & Hn).
  exists n. repeat split; try assumption.
  rewrite scheduled_app, S1. simpl. apply app_nil_r.
Qed.

(** What a sequence of polls at non-decreasing clock readings has done
    when it returns: it has walked the cursor [n] beats along its timeline
    and scheduled exactly those beats, [n] being the first beat that is not
    due at the last reading. *)
Lemma polls_returned fuel nows : forall e e' fx,
  isPlaying e = true -> audioContext e = true ->
  StronglySorted Qle nows ->
  polls raises fuel nows e = Returned (e', fx) ->
  exists n,
    e' = set_timerID (timerID e') (after n e) /\ scheduled fx = upcoming n e /\
    forall final, last nows = Some final ->
      timerID e' = true /\
      (forall k, (k < n)%nat ->
         (nextNoteTime (after k e) < final + scheduleAheadTime)%Q) /\
      (final + scheduleAheadTime <= nextNoteTime (after n e))%Q.
Proof.
  induction nows as [|now rest IH]; intros e e' fx Hp Hc Hs H.
  - simpl in H. injection H as <- <-. exists 0%nat.
    split; [symmetry; apply set_timerID_same|]. split; [reflexivity|].
    intros final Hl. discriminate.
  - simpl in H.
    destruct (scheduler raises fuel now e) as [[e1 fx1]|[e1 fx1]|] eqn:W;
      try discriminate.
    destruct (scheduler_returned _ _ _ _ _ Hp Hc W) as (n1 & -> & S1 & Hk1 & Hn1).
    destruct (polls raises fuel rest (set_timerID true (after n1 e)))
      as [[e2 fx2]|[e2 fx2]|] eqn:P; try discriminate.
    simpl in H. injection H as <- <-.
    apply StronglySorted_inv in Hs as [Hs Hall].
    destruct (after_settings n1 e) as (_ & _ & _ & _ & _ & Hc1 & Hp1 & _).
    destruct (IH (set_timerID true (after n1 e)) e2 fx2) as (n2 & E2 & S2 & Hfin);
      [simpl; congruence | simpl; congruence | exact Hs | exact P |].
    rewrite after_set_timerID, set_timerID_idem in E2.
    rewrite upcoming_set_timerID in S2.
    exists (n1 + n2)%nat. rewrite after_add. split; [exact E2|].
    split; [rewrite scheduled_app, S1, S2, upcoming_app; reflexivity|].
    intros final Hl. rewrite last_cons in Hl.
    destruct (last rest) as [final'|] eqn:Lr.
    + injection Hl as ->.
      destruct (Hfin final eq_refl) as (Ht2 & Hk2 & Hn2).
      rewrite after_set_timerID in Hn2. simpl in Hn2.
      assert (Hle : (now <= final)%Q).
      { rewrite Forall_forall in Hall. apply Hall.
        now apply last_Some_elem_of. }
      split; [exact Ht2|]. split; [|exact Hn2].
      intros k Hlt. destruct (Nat.lt_ge_cases k n1) as [L|L].
      * specialize (Hk1 k L). lra.
      * replace k with (n1 + (k - n1))%nat by lia. rewrite after_add.
        specialize (Hk2 (k - n1)%nat ltac:(lia)).
        rewrite after_set_timerID in Hk2. exact Hk2.
    + injection Hl as <-.
      apply last_None in Lr. subst rest. simpl in P. injection P as P1 P2.
      assert (n2 = 0%nat) as ->.
      { destruct n2; [reflexivity|]. rewrite <- P2 in S2. discriminate. }
      rewrite Nat.add_0_r. split; [now rewrite <- P1|]. split; assumption.
Qed.

Lemma polls_total B nows : forall e,
  isPlaying e = true -> audioContext e = true -> tempo_bounded B e ->
  exists fuel0, forall fuel, (fuel0 <= fuel)%nat ->
    exists r, polls raises fuel nows e = Returned r.
Proof.
  induction nows as [|now rest IH]; intros e Hp Hc Hb.
  - exists 0%nat. intros fuel _. now exists (e, []).
  - destruct (scheduler_while_total raises never now B e Hc Hb) as [f1 H1].
    destruct (H1 f1 (Nat.le_refl _)) as [[e1 fx1] W1].
    destruct (scheduler_while_returned raises now f1 e e1 fx1 never Hc W1)
      as (n1 & -> & _).
    destruct (after_settings n1 e) as (_ & _ & _ & _ & _ & Hc1 & Hp1 & _).
    destruct (IH (set_timerID true (after n1 e))) as [f2 H2];
      [simpl; congruence | simpl; congruence | |].
    { apply (tempo_bounded_after B n1) in Hb. exact Hb. }
    exists (Nat.max f1 f2). intros fuel Hle.
    destruct (H2 fuel ltac:(lia)) as [[e2 fx2] W2].
    exists (e2, (fx1 ++ [SchedulerTimeout lookahead]) ++ fx2).
    simpl. unfold scheduler. rewrite Hp, Hc. simpl.
    rewrite (scheduler_while_more_fuel _ _ _ _ _ fuel W1 ltac:(lia)).
    rewrite W2. reflexivity.
Qed.
End Polls.

(** ** Independence from the timing of the polls *)

Lemma polls_outcome (raises : Z -> Q -> bool) (e : Engine) (nows : list Q) (final : Q) :
  reliable raises ->
  isPlaying e = true -> audioContext e = true ->
  (0 < bpm e)%Q -> (0 < maxBpm e)%Q ->
  StronglySorted Qle nows -> last nows = Some final ->
  exists (fuel0 n : nat),
    (forall fuel, (fuel0 <= fuel)%nat ->
       exists fx, polls raises fuel nows e = Returned (set_timerID true (after n e), fx) /\
                  scheduled fx = upcoming n e) /\
    (forall k, (k < n)%nat ->
       (nextNoteTime (after k e) < final + scheduleAheadTime)%Q) /\
    (final + scheduleAheadTime <= nextNoteTime (after n e))%Q.
Proof.
  intros Hrel Hp Hc Ht Hm Hs Hl.
  assert (Hb : tempo_bounded (Qmax (bpm e) (maxBpm e)) e).
  { repeat split; try assumption; [apply Q.le_max_l | apply Q.le_max_r]. }
  destruct (polls_total raises Hrel _ nows e Hp Hc Hb) as [fuel0 Htot].
  destruct (Htot fuel0 (Nat.le_refl _)) as [[e0 fx0] W0].
  destruct (polls_returned raises Hrel fuel0 nows e e0 fx0 Hp Hc Hs W0)
    as (n & E0 & S0 & F0).
  destruct (F0 final Hl) as (T0 & K0 & N0).
  exists fuel0, n. split; [|split; assumption].
  intros fuel Hle.
  destruct (Htot fuel Hle) as [[e1 fx1] W1].
  destruct (polls_returned raises Hrel fuel nows e e1 fx1 Hp Hc Hs W1)
    as (n' & E1 & S1 & F1).
  destruct (F1 final Hl) as (T1 & K1 & N1).
  assert (n' = n) as ->.
  { apply (first_not_due_unique (fun k => nextNoteTime (after k e))
             (final + scheduleAheadTime)); assumption. }
  exists fx1. rewrite W1, E1, T1. split; [reflexivity | exact S1].
Qed.

(** C1: with a positive tempo (and ceiling), the beats handed to the audio
    clock do not depend on when and how often the poll fires.  Two sequences
    of polls at non-decreasing clock readings that end at the same reading --
    one sporadic, one perfectly regular, say -- both return, schedule the same
    beats with the same beat indexes at the same audio-clock times, and leave
    the same cursor: the first [n] beats of the cursor's own timeline, [n]
    being the first beat not yet due at the last reading, so none is dropped
    and none is duplicated; on that timeline each time is the previous one
    plus [60 / tempo] for the tempo then in force, whatever the clock read. *)
Theorem poll_timing_does_not_change_the_beats
    (raises : Z -> Q -> bool) (e : Engine) (nows1 nows2 : list Q) (final : Q) :
  reliable raises ->
  isPlaying e = true -> audioContext e = true ->
  (0 < bpm e)%Q -> (0 < maxBpm e)%Q ->
  StronglySorted Qle nows1 -> StronglySorted Qle nows2 ->
  last nows1 = Some final -> last nows2 = Some final ->
  exists (fuel0 n : nat),
    (forall fuel, (fuel0 <= fuel)%nat ->
       exists fx1 fx2,
         polls raises fuel nows1 e = Returned (set_timerID true (after n e), fx1) /\
         polls raises fuel nows2 e = Returned (set_timerID true (after n e), fx2) /\
         scheduled fx1 = upcoming n e /\ scheduled fx2 = upcoming n e) /\
    (forall k, (k < n)%nat ->
       (nextNoteTime (after k e) < final + scheduleAheadTime)%Q) /\
    (final + scheduleAheadTime <= nextNoteTime (after n e))%Q /\
    (forall k, nextNoteTime (after (S k) e) =
               (nextNoteTime (after k e) + 60 / bpm (after k e))%Q).
Proof.
  intros Hrel Hp Hc Ht Hm Hs1 Hs2 Hl1 Hl2.
  destruct (polls_outcome raises e nows1 final Hrel Hp Hc Ht Hm Hs1 Hl1)
    as (f1 & n1 & R1 & K1 & N1).
  destruct (polls_outcome raises e nows2 final Hrel Hp Hc Ht Hm Hs2 Hl2)
    as (f2 & n2 & R2 & K2 & N2).
  assert (n2 = n1) as ->.
  { apply (first_not_due_unique (fun k => nextNoteTime (after k e))
             (final + scheduleAheadTime)); assumption. }
  exists (Nat.max f1 f2), n1. split; [|split; [exact K1|split; [exact N1|]]].
  - intros fuel Hle.
    destruct (R1 fuel ltac:(lia)) as (fx1 & E1 & S1).
    destruct (R2 fuel ltac:(lia)) as (fx2 & E2 & S2).
    exists fx1, fx2. repeat split; assumption.
  - intros k. rewrite after_S. apply nextNote_time.
Qed.

Lemma poll_timing_does_not_change_the_beats_witness :
  exists (fuel0 n : nat),
    (forall fuel, (fuel0 <= fuel)%nat ->
       exists fx1 fx2,
         polls never_fails fuel sporadic_polls trainer =
           Returned (set_timerID true (after n trainer), fx1) /\
         polls never_fails fuel (regular_polls 0 40) trainer =
           Returned (set_timerID true (after n trainer), fx2) /\
         scheduled fx1 = upcoming n trainer /\ scheduled fx2 = upcoming n trainer) /\
    (forall k, (k < n)%nat ->
       (nextNoteTime (after k trainer) < 1 + scheduleAheadTime)%Q) /\
    (1 + scheduleAheadTime <= nextNoteTime (after n trainer))%Q /\
    (forall k, nextNoteTime (after (S k) trainer) =
               (nextNoteTime (after k trainer) + 60 / bpm (after k trainer))%Q).
Proof.
  apply (poll_timing_does_not_change_the_beats never_fails trainer
           sporadic_polls (regular_polls 0 40) 1).
  - intros beat time. reflexivity.
  - reflexivity.
  - reflexivity.
  - reflexivity.
  - reflexivity.
  - repeat (constructor; try (vm_compute; discriminate)).
  - vm_compute regular_polls.
    repeat (constructor; try (vm_compute; discriminate)).
  - reflexivity.
  - vm_compute. reflexivity.
Defined.


(** * Further properties of the engine *)

(** ** Counting beats *)

(** X1: the engine never loses count: whatever the settings and the cursor,
    after [n] advances the number of beats accounted for by the bar count and
    the beat index has grown by exactly [n]. *)
Theorem beat_count_conserved (e : Engine) (n : nat) :
  barCount (after n e) * beatsPerBar e + currentBeat (after n e) =
  barCount e * beatsPerBar e + currentBeat e + Z.of_nat n.
Proof.
  induction n as [|n IH]; [simpl; lia|].
  rewrite after_S, nextNote_beat, nextNote_bar.
  destruct (after_settings n e) as (-> & _).
  destruct (Z.eqb_spec (currentBeat (after n e) + 1) (beatsPerBar e)) as [E|E]; nia.
Qed.

(** ** Tempo along a run *)

Lemma ramp_off e :
  (increaseAmount e <= 0)%Q \/ increaseIntervalBars e <= 0 -> ramp_due e = false.
Proof.
  intros [H|H]; unfold ramp_due.
  - apply Qltb_false in H. rewrite H. now rewrite andb_false_r.
  - assert (E : (0 <? increaseIntervalBars e) = false) by (apply Z.ltb_ge; lia).
    rewrite E. now rewrite !andb_false_r.
Qed.

Lemma trainer_off_keeps_tempo (e : Engine) (n : nat) :
  (increaseAmount e <= 0)%Q \/ increaseIntervalBars e <= 0 ->
  bpm (after n e) = bpm e /\ notifications n e = [].
Proof.
  intros H. induction n as [|n [IHt IHn]]; [split; reflexivity|].
  assert (D : ramp_due (after n e) = false).
  { apply ramp_off. destruct (after_settings n e) as (_ & -> & -> & _). exact H. }
  split.
  - rewrite after_S, nextNote_bpm, D. exact IHt.
  - replace (S n) with (n + 1)%nat by lia.
    rewrite notifications_app, IHn. simpl.
    rewrite nextNote_effects, D. reflexivity.
Qed.

(** X2: with a ramp amount or a ramp interval that is not positive the
    trainer is off: however many beats and bars go by, from any cursor, the
    tempo stays exactly what it was and no tempo change is notified. *)
Theorem no_ramp_keeps_tempo (e : Engine) (n : nat) :
  (increaseAmount e <= 0)%Q \/ increaseIntervalBars e <= 0 ->
  bpm (after n e) = bpm e /\ notifications n e = [].
Proof. apply trainer_off_keeps_tempo. Qed.

Lemma no_ramp_keeps_tempo_witness :
  bpm (after 50 waltz) = bpm waltz /\ notifications 50 waltz = [].
Proof.
  apply (no_ramp_keeps_tempo waltz 50). left. vm_compute. discriminate.
Defined.

Lemma ramp_due_amount e : ramp_due e = true -> (0 < increaseAmount e)%Q.
Proof.
  unfold ramp_due. intros D.
  apply andb_prop in D as [D _]. apply andb_prop in D as [D _].
  apply andb_prop in D as [_ D]. now apply Qltb_true in D.
Qed.

(** X3: a tempo that starts at or below the ceiling never decreases and
    never passes the ceiling, from any cursor position and for any number of
    advances. *)
Theorem tempo_climbs_to_ceiling (e : Engine) (n : nat) :
  (bpm e <= maxBpm e)%Q ->
  (bpm (after n e) <= bpm (after (S n) e))%Q /\
  (bpm (after n e) <= maxBpm e)%Q.
Proof.
  intros H.
  assert (B : forall k, (bpm (after k e) <= maxBpm e)%Q /\
                        (bpm (after k e) <= bpm (after (S k) e))%Q).
  { induction k as [|k [IHb IHm]].
    - split; [exact H|]. rewrite after_S. simpl after. rewrite nextNote_bpm.
      destruct (ramp_due e && negb (Qeq_bool (candidate e) (bpm e))) eqn:D; [|lra].
      apply andb_prop in D as [D _]. apply ramp_due_amount in D. unfold candidate.
      destruct (Q.min_spec (bpm e + increaseAmount e) (maxBpm e)) as [[L ->]|[L ->]]; lra.
    - assert (Hk : (bpm (after (S k) e) <= maxBpm e)%Q).
      { rewrite after_S, nextNote_bpm.
        destruct (ramp_due (after k e) && negb (Qeq_bool (candidate (after k e))
                                                   (bpm (after k e)))); [|exact IHb].
        unfold candidate. destruct (after_settings k e) as (_ & _ & _ & -> & _).
        apply Q.le_min_r. }
      split; [exact Hk|].
      rewrite (after_S (S k)), nextNote_bpm.
      destruct (ramp_due (after (S k) e) &&
                negb (Qeq_bool (candidate (after (S k) e)) (bpm (after (S k) e)))) eqn:D;
        [|lra].
      apply andb_prop in D as [D _]. apply ramp_due_amount in D. unfold candidate.
      destruct (after_settings (S k) e) as (_ & Ea & _ & Em & _).
      rewrite Em in *.
      destruct (Q.min_spec (bpm (after (S k) e) + increaseAmount (after (S k) e)) (maxBpm e))
        as [[L ->]|[L ->]]; lra. }
  destruct (B n) as [B1 B2]. split; assumption.
Qed.

Lemma tempo_climbs_to_ceiling_witness :
  (bpm (after 7 trainer) <= bpm (after 8 trainer))%Q /\
  (bpm (after 7 trainer) <= maxBpm trainer)%Q.
Proof.
  apply (tempo_climbs_to_ceiling trainer 7). vm_compute. discriminate.
Defined.

Lemma notified_tempos_app fx1 fx2 :
  notified_tempos (fx1 ++ fx2) = notified_tempos fx1 ++ notified_tempos fx2.
Proof.
  induction fx1 as [|x fx1 IH]; [reflexivity|].
  destruct x; simpl; now rewrite IH.
Qed.

(** X4: the tempo-change consumer is never told a tempo above the ceiling:
    every value notified during any run is at most [maxBpm], even when the
    run started above it. *)
Theorem notified_tempo_within_ceiling (e : Engine) (n : nat) (v : Q) :
  In v (notified_tempos (notifications n e)) -> (v <= maxBpm e)%Q.
Proof.
  revert e. induction n as [|n IH]; intros e H; [contradiction|].
  simpl in H. rewrite notified_tempos_app in H. apply in_app_or in H as [H|H].
  - rewrite nextNote_effects in H.
    destruct (ramp_due e && negb (Qeq_bool (candidate e) (bpm e)) && onBpmChangeCallback e);
      [|contradiction].
    destruct H as [<-|[]]. unfold candidate. apply Q.le_min_r.
  - apply IH in H. now destruct (nextNote_settings e) as (_ & _ & _ & <- & _).
Qed.

Lemma notified_tempo_within_ceiling_witness :
  (90 <= maxBpm above_ceiling)%Q.
Proof.
  apply (notified_tempo_within_ceiling above_ceiling 1 90). left. reflexivity.
Defined.

(** ** Order of the scheduled beats *)

Lemma time_advances B e :
  tempo_bounded B e -> (nextNoteTime e < nextNoteTime (fst (nextNote e)))%Q.
Proof.
  intros (H & _). rewrite nextNote_time.
  assert (P : (0 < 60 / bpm e)%Q) by (apply Qlt_shift_div_l; lra).
  lra.
Qed.

Lemma times_increase B e (i j : nat) :
  tempo_bounded B e -> (i < j)%nat ->
  (nextNoteTime (after i e) < nextNoteTime (after j e))%Q.
Proof.
  intros Hb Hlt. induction j as [|j IH]; [lia|].
  assert (S1 : (nextNoteTime (after j e) < nextNoteTime (after (S j) e))%Q).
  { rewrite after_S. apply (time_advances B). now apply tempo_bounded_after. }
  destruct (Nat.eq_dec i j) as [->|Hne]; [exact S1|].
  specialize (IH ltac:(lia)). lra.
Qed.

(** ** What a poll leaves behind, whatever the backend does *)

Lemma beat_timers_app fx1 fx2 :
  beat_timers (fx1 ++ fx2) = beat_timers fx1 ++ beat_timers fx2.
Proof.
  induction fx1 as [|x fx1 IH]; [reflexivity|].
  destruct x; simpl; now rewrite IH.
Qed.

Lemma nextNote_arms_nothing e : beat_timers (snd (nextNote e)) = [].
Proof.
  rewrite nextNote_effects.
  now destruct (ramp_due e && negb (Qeq_bool (candidate e) (bpm e)) && onBpmChangeCallback e).
Qed.

Lemma scheduleNote_trace raises now e :
  audioContext e = true ->
  let note := (currentBeat e, nextNoteTime e) in
  let timers := if onBeatCallback e then [beat_timer now note] else [] in
  match scheduleNote raises (currentBeat e) (nextNoteTime e) now e with
  | Returned fx =>
      raises (currentBeat e) (nextNoteTime e) = false /\
      scheduled fx = [note] /\ beat_timers fx = timers /\ rearmed fx = false
  | Threw fx =>
      raises (currentBeat e) (nextNoteTime e) = true /\
      scheduled fx = [] /\ beat_timers fx = timers /\ rearmed fx = false
  | OutOfFuel => False
  end.
Proof.
  intros Hc. unfold scheduleNote. rewrite Hc. simpl.
  destruct (raises (currentBeat e) (nextNoteTime e)); destruct (onBeatCallback e);
    repeat split.
Qed.

Lemma scheduler_while_trace raises now fuel : forall e,
  audioContext e = true ->
  loop_trace raises now e (scheduler_while raises fuel now e).
Proof.
  induction fuel as [|fuel IH]; intros e Hc.
  - simpl. destruct (Qltb (nextNoteTime e) (now + scheduleAheadTime)) eqn:T; [exact I|].
    apply Qltb_false in T. exists 0%nat. simpl.
    destruct (onBeatCallback e); repeat split; try exact T; intros k Hk; lia.
  - simpl. destruct (Qltb (nextNoteTime e) (now + scheduleAheadTime)) eqn:T.
    + apply Qltb_true in T.
      pose proof (scheduleNote_trace raises now e Hc) as N. simpl in N.
      destruct (scheduleNote raises (currentBeat e) (nextNoteTime e) now e) as [fx1|fx1|];
        [|destruct N as (R & S1 & B1 & A1)|contradiction].
      * destruct N as (R & S1 & B1 & A1).
        destruct (nextNote_quiet e) as [S2 A2].
        pose proof (nextNote_arms_nothing e) as B2.
        destruct (nextNote_settings e) as (_ & _ & _ & _ & _ & Hc1 & _ & _ & Hb1 & _).
        specialize (IH (fst (nextNote e)) ltac:(congruence)).
        destruct (nextNote e) as [e1 fx2] eqn:N. simpl in *.
        destruct (scheduler_while raises fuel now e1) as [[e2 fx3]|[e2 fx3]|]; simpl;
          [| |exact I].
        -- destruct IH as (n & -> & S3 & B3 & A3 & K & F).
           exists (S n). simpl. rewrite ?N. simpl. rewrite Hb1 in B3.
           rewrite !scheduled_app, !beat_timers_app, !rearmed_app, S1, S2, S3, B1, B2, B3,
             A1, A2, A3.
           split; [reflexivity|]. split; [reflexivity|].
           split; [now destruct (onBeatCallback e)|]. split; [reflexivity|].
           split; [|exact F].
           intros [|k] Hk; [exact T|]. simpl. rewrite N. apply K. lia.
        -- destruct IH as (n & -> & S3 & B3 & A3 & K & F).
           exists (S n). simpl. rewrite ?N. simpl. rewrite Hb1 in B3. simpl in B3.
           rewrite ?N in B3. simpl in B3.
           rewrite !scheduled_app, !beat_timers_app, !rearmed_app, S1, S2, S3, B1, B2, B3,
             A1, A2, A3.
           split; [reflexivity|]. split; [reflexivity|].
           split; [now destruct (onBeatCallback e)|]. split; [reflexivity|].
           split; [|exact F].
           intros [|k] Hk; [exact T|]. simpl. rewrite N. apply K. lia.
      * exists 0%nat. simpl. rewrite S1, B1, A1.
        split; [reflexivity|]. split; [reflexivity|].
        split; [now destruct (onBeatCallback e)|]. split; [reflexivity|].
        split; [|exact R].
        intros k Hk. assert (k = 0%nat) as -> by lia. exact T.
    + apply Qltb_false in T. exists 0%nat. simpl.
      destruct (onBeatCallback e); repeat split; try exact T; intros k Hk; lia.
Qed.

Lemma scheduler_trace raises fuel now e :
  match scheduler raises fuel now e with
  | Returned (e', fx) =>
      (e' = e /\ fx = []) \/
      (exists fx0, loop_trace raises now e (Returned (set_timerID (timerID e) e', fx0)) /\
                   fx = fx0 ++ [SchedulerTimeout lookahead] /\ timerID e' = true /\
                   isPlaying e = true)
  | Threw r => loop_trace raises now e (Threw r)
  | OutOfFuel => True
  end.
Proof.
  unfold scheduler.
  destruct (isPlaying e) eqn:Hp; [|left; split; reflexivity].
  destruct (audioContext e) eqn:Hc; [|left; split; reflexivity].
  simpl. pose proof (scheduler_while_trace raises now fuel e Hc) as L.
  destruct (scheduler_while raises fuel now e) as [[e1 fx1]|[e1 fx1]|]; [|exact L|exact I].
  right. exists fx1. split; [|repeat split].
  simpl. rewrite set_timerID_idem.
  destruct L as (n & -> & L). exists n. split; [|exact L].
  assert (T : timerID (after n e) = timerID e).
  { clear. induction n as [|n IH]; [reflexivity|]. rewrite after_S.
    destruct (nextNote_settings (after n e)) as (_&_&_&_&_&_&_& -> &_). exact IH. }
  rewrite <- T. apply set_timerID_same.
Qed.

Lemma In_upcoming n : forall e b t,
  In (b, t) (upcoming n e) ->
  exists k, (k < n)%nat /\ b = currentBeat (after k e) /\ t = nextNoteTime (after k e).
Proof.
  induction n as [|n IH]; intros e b t H; [contradiction|].
  destruct H as [H|H].
  - injection H as <- <-. exists 0%nat. repeat split. lia.
  - apply IH in H as (k & Hk & -> & ->). exists (S k). repeat split. lia.
Qed.

Lemma scheduled_timerless fx d : scheduled (fx ++ [SchedulerTimeout d]) = scheduled fx.
Proof. rewrite scheduled_app. apply app_nil_r. Qed.

Lemma beat_timers_timerless fx d : beat_timers (fx ++ [SchedulerTimeout d]) = beat_timers fx.
Proof. rewrite beat_timers_app. apply app_nil_r. Qed.

Lemma polls_prefix raises fuel nows : forall e,
  exists n, scheduled (effects_of (polls raises fuel nows e)) = upcoming n e.
Proof.
  induction nows as [|now rest IH]; intros e; [now exists 0%nat|].
  simpl. pose proof (scheduler_trace raises fuel now e) as T.
  destruct (scheduler raises fuel now e) as [[e1 fx1]|[e1 fx1]|].
  - destruct (IH e1) as [m Hm].
    assert (P : exists n, scheduled fx1 = upcoming n e /\
                          (forall m, upcoming m e1 = upcoming m (after n e))).
    { destruct T as [[-> ->]|(fx0 & (n & E & S0 & _) & -> & _)].
      - exists 0%nat. split; reflexivity.
      - exists n. split; [now rewrite scheduled_timerless|].
        intros k. rewrite <- E, upcoming_set_timerID. reflexivity. }
    destruct P as (n & S1 & U).
    destruct (polls raises fuel rest e1) as [[e2 fx2]|[e2 fx2]|]; simpl in *.
    + exists (n + m)%nat. rewrite scheduled_app, S1, Hm, U, upcoming_app. reflexivity.
    + exists (n + m)%nat. rewrite scheduled_app, S1, Hm, U, upcoming_app. reflexivity.
    + now exists 0%nat.
  - destruct T as (n & _ & S1 & _). now exists n.
  - now exists 0%nat.
Qed.

(** The beats scheduled by a sequence of polls and the beat index the cursor
    is left on, whether the polls returned or an exception ended them. *)
Lemma polls_cursor raises fuel nows : forall e,
  match polls raises fuel nows e with
  | Returned (e', fx) | Threw (e', fx) =>
      exists n, scheduled fx = upcoming n e /\
                currentBeat e' = currentBeat (after n e) /\
                beatsPerBar e' = beatsPerBar e
  | OutOfFuel => True
  end.
Proof.
  induction nows as [|now rest IH]; intros e.
  { exists 0%nat. repeat split. }
  simpl. pose proof (scheduler_trace raises fuel now e) as T.
  destruct (scheduler raises fuel now e) as [[e1 fx1]|[e1 fx1]|]; [| |exact I].
  - specialize (IH e1).
    assert (P : exists n, scheduled fx1 = upcoming n e /\
                          (forall m, upcoming m e1 = upcoming m (after n e)) /\
                          (forall m, currentBeat (after m e1) =
                                     currentBeat (after m (after n e))) /\
                          beatsPerBar e1 = beatsPerBar e).
    { destruct T as [[-> ->]|(fx0 & (n & E & S0 & _) & -> & _)].
      - exists 0%nat. repeat split.
      - exists n. split; [now rewrite scheduled_timerless|].
        split; [|split].
        + intros k. rewrite <- E, upcoming_set_timerID. reflexivity.
        + intros k. rewrite <- E, after_set_timerID. reflexivity.
        + destruct (after_settings n e) as (<- & _). rewrite <- E. reflexivity. }
    destruct P as (n & S1 & U & C & B).
    destruct (polls raises fuel rest e1) as [[e2 fx2]|[e2 fx2]|]; simpl; [| |exact I];
      destruct IH as (m & S2 & C2 & B2); exists (n + m)%nat;
      rewrite scheduled_app, S1, S2, U, upcoming_app, C2, C, after_add, B2, B;
      repeat split.
  - destruct T as (n & -> & S1 & _). exists n.
    destruct (after_settings n e) as (-> & _). repeat split. exact S1.
Qed.

(** ** The beat index of the scheduled beats *)

(** C4: with [beatsPerBar] unchanged, at least 1, the cursor in range and a
    positive tempo, one cursor advance moves the beat index to the next one
    of the cycle and keeps it in [0, beatsPerBar); whenever the polls fire
    and whether they return or an exception ends them, the [k]-th beat they
    hand to the audio clock carries the index
    [(currentBeat + k) mod beatsPerBar] -- from a fresh cursor 0, 1, ...,
    beatsPerBar-1, 0, ... -- and the cursor they leave lies in
    [0, beatsPerBar), on the index after the last scheduled one; and on a
    backend that does not raise, polls at non-decreasing clock readings do
    return and schedule every beat due by the last reading, so that the
    cycle is not run through trivially. *)
Theorem scheduled_beat_index_cycles
    (raises : Z -> Q -> bool) (nows : list Q) (final : Q) (e : Engine) :
  1 <= beatsPerBar e ->
  0 <= currentBeat e < beatsPerBar e ->
  (0 < bpm e)%Q -> (0 < maxBpm e)%Q ->
  (currentBeat (fst (nextNote e)) = (currentBeat e + 1) mod beatsPerBar e /\
   0 <= currentBeat (fst (nextNote e)) < beatsPerBar (fst (nextNote e))) /\
  (forall fuel,
     match polls raises fuel nows e with
     | Returned (e', fx) | Threw (e', fx) =>
         (forall (k : nat) b t,
            scheduled fx !! k = Some (b, t) ->
            b = (currentBeat e + Z.of_nat k) mod beatsPerBar e) /\
         currentBeat e' =
           (currentBeat e + Z.of_nat (length (scheduled fx))) mod beatsPerBar e /\
         0 <= currentBeat e' < beatsPerBar e'
     | OutOfFuel => True
     end) /\
  (reliable raises -> isPlaying e = true -> audioContext e = true ->
   StronglySorted Qle nows -> last nows = Some final ->
   exists (fuel0 n : nat),
     (forall k, (k < n)%nat ->
        (nextNoteTime (after k e) < final + scheduleAheadTime)%Q) /\
     (final + scheduleAheadTime <= nextNoteTime (after n e))%Q /\
     forall fuel, (fuel0 <= fuel)%nat ->
       exists e' fx,
         polls raises fuel nows e = Returned (e', fx) /\
         length (scheduled fx) = n /\
         forall k, (k < n)%nat ->
           scheduled fx !! k =
             Some ((currentBeat e + Z.of_nat k) mod beatsPerBar e,
                   nextNoteTime (after k e))).
Proof.
  intros Hb Hc Ht Hm. split; [|split].
  - pose proof (beat_after e 1 Hb Hc) as B1. simpl in B1.
    destruct (after_settings 1 e) as (S1 & _). simpl in S1.
    rewrite S1, B1. split; [reflexivity|]. apply Z.mod_pos_bound. lia.
  - intros fuel. pose proof (polls_cursor raises fuel nows e) as P.
    assert (G : forall e' fx,
              (exists n, scheduled fx = upcoming n e /\
                         currentBeat e' = currentBeat (after n e) /\
                         beatsPerBar e' = beatsPerBar e) ->
              (forall (k : nat) b t,
                 scheduled fx !! k = Some (b, t) ->
                 b = (currentBeat e + Z.of_nat k) mod beatsPerBar e) /\
              currentBeat e' =
                (currentBeat e + Z.of_nat (length (scheduled fx))) mod beatsPerBar e /\
              0 <= currentBeat e' < beatsPerBar e').
    { intros e' fx (n & S1 & C1 & B1). rewrite S1, upcoming_length, C1, B1.
      rewrite (beat_after e n Hb Hc). split; [|split].
      - intros k b t Hl.
        assert (Hn : (k < n)%nat).
        { apply lookup_lt_Some in Hl. now rewrite upcoming_length in Hl. }
        rewrite (upcoming_lookup n k e Hn) in Hl.
        injection Hl as <- _. now apply beat_after.
      - reflexivity.
      - apply Z.mod_pos_bound. lia. }
    destruct (polls raises fuel nows e) as [[e' fx]|[e' fx]|]; [| |exact I];
      now apply G.
  - intros Hrel Hp Ha Hs Hl.
    destruct (polls_outcome raises e nows final Hrel Hp Ha Ht Hm Hs Hl)
      as (fuel0 & n & R & K & N).
    exists fuel0, n. split; [exact K|]. split; [exact N|].
    intros fuel Hle. destruct (R fuel Hle) as (fx & E & S1).
    exists (set_timerID true (after n e)), fx. split; [exact E|].
    rewrite S1, upcoming_length. split; [reflexivity|].
    intros k Hk. rewrite (upcoming_lookup n k e Hk).
    now rewrite (beat_after e k Hb Hc).
Qed.

Lemma scheduled_beat_index_cycles_witness :
  (currentBeat (fst (nextNote waltz)) = (currentBeat waltz + 1) mod beatsPerBar waltz /\
   0 <= currentBeat (fst (nextNote waltz)) < beatsPerBar (fst (nextNote waltz))) /\
  (forall fuel,
     match polls second_beat_fails fuel [1%Q; 2%Q] waltz with
     | Returned (e', fx) | Threw (e', fx) =>
         (forall (k : nat) b t,
            scheduled fx !! k = Some (b, t) ->
            b = (currentBeat waltz + Z.of_nat k) mod beatsPerBar waltz) /\
         currentBeat e' =
           (currentBeat waltz + Z.of_nat (length (scheduled fx))) mod beatsPerBar waltz /\
         0 <= currentBeat e' < beatsPerBar e'
     | OutOfFuel => True
     end) /\
  (exists (fuel0 n : nat),
     (forall k, (k < n)%nat ->
        (nextNoteTime (after k waltz) < 2 + scheduleAheadTime)%Q) /\
     (2 + scheduleAheadTime <= nextNoteTime (after n waltz))%Q /\
     forall fuel, (fuel0 <= fuel)%nat ->
       exists e' fx,
         polls never_fails fuel [1%Q; 2%Q] waltz = Returned (e', fx) /\
         length (scheduled fx) = n /\
         forall k, (k < n)%nat ->
           scheduled fx !! k =
             Some ((currentBeat waltz + Z.of_nat k) mod beatsPerBar waltz,
                   nextNoteTime (after k waltz))).
Proof.
  assert (Hb : 1 <= beatsPerBar waltz) by (vm_compute; discriminate).
  assert (Hc : 0 <= currentBeat waltz < beatsPerBar waltz)
    by (split; [vm_compute; discriminate | reflexivity]).
  split; [|split].
  - apply (scheduled_beat_index_cycles second_beat_fails [1%Q; 2%Q] 2 waltz Hb Hc);
      reflexivity.
  - apply (scheduled_beat_index_cycles second_beat_fails [1%Q; 2%Q] 2 waltz Hb Hc);
      reflexivity.
  - apply (scheduled_beat_index_cycles never_fails [1%Q; 2%Q] 2 waltz Hb Hc);
      try reflexivity.
    + intros beat time. reflexivity.
    + repeat (constructor; try (vm_compute; discriminate)).
Defined.

(** X5: whenever the polls fire and whatever the sound backend does -- even
    when a note raises or the clock readings are out of order -- the beats
    handed to the audio clock by a sequence of polls are an initial segment
    of the cursor's timeline: none is skipped, none is repeated, none is out
    of order; at positive tempo and ceiling their times strictly increase. *)
Theorem scheduled_beats_form_a_prefix
    (raises : Z -> Q -> bool) (fuel : nat) (nows : list Q) (e : Engine) :
  (exists n, scheduled (effects_of (polls raises fuel nows e)) = upcoming n e) /\
  ((0 < bpm e)%Q -> (0 < maxBpm e)%Q ->
   forall (i j : nat) b t b' t',
     (i < j)%nat ->
     scheduled (effects_of (polls raises fuel nows e)) !! i = Some (b, t) ->
     scheduled (effects_of (polls raises fuel nows e)) !! j = Some (b', t') ->
     (t < t')%Q).
Proof.
  destruct (polls_prefix raises fuel nows e) as [n Hn].
  split; [now exists n|].
  intros Ht Hm i j b t b' t' Hij Hi Hj. rewrite Hn in Hi, Hj.
  assert (Li : (i < n)%nat).
  { apply lookup_lt_Some in Hi. now rewrite upcoming_length in Hi. }
  assert (Lj : (j < n)%nat).
  { apply lookup_lt_Some in Hj. now rewrite upcoming_length in Hj. }
  rewrite (upcoming_lookup n i e Li) in Hi. rewrite (upcoming_lookup n j e Lj) in Hj.
  injection Hi as _ <-. injection Hj as _ <-.
  apply (times_increase (Qmax (bpm e) (maxBpm e))); [|exact Hij].
  repeat split; try assumption; [apply Q.le_max_l | apply Q.le_max_r].
Qed.

Lemma scheduled_beats_form_a_prefix_witness :
  (exists n, scheduled (effects_of (polls second_beat_fails 9 [3%Q; 1%Q] steady_climb)) =
             upcoming n steady_climb) /\
  (forall (i j : nat) b t b' t',
     (i < j)%nat ->
     scheduled (effects_of (polls never_fails 9 [3%Q; 1%Q] steady_climb)) !! i = Some (b, t) ->
     scheduled (effects_of (polls never_fails 9 [3%Q; 1%Q] steady_climb)) !! j = Some (b', t') ->
     (t < t')%Q).
Proof.
  split.
  - apply (scheduled_beats_form_a_prefix second_beat_fails 9 [3%Q; 1%Q] steady_climb).
  - apply (scheduled_beats_form_a_prefix never_fails 9 [3%Q; 1%Q] steady_climb);
      reflexivity.
Defined.

(** ** The window of one poll *)

(** X6: at positive tempo and ceiling, on a backend that does not raise, a
    poll returns with the timer armed again and the cursor at least the
    schedule-ahead time beyond the clock; every beat it has scheduled lies
    before that horizon and not before the cursor it started from, so a poll
    that finds the cursor at or after the clock schedules nothing in the
    past. *)
Theorem poll_schedules_within_its_window
    (raises : Z -> Q -> bool) (now : Q) (e : Engine) :
  reliable raises -> isPlaying e = true -> audioContext e = true ->
  (0 < bpm e)%Q -> (0 < maxBpm e)%Q ->
  exists fuel0, forall fuel, (fuel0 <= fuel)%nat ->
    exists e' fx,
      scheduler raises fuel now e = Returned (e', fx) /\
      rearmed fx = true /\
      (now + scheduleAheadTime <= nextNoteTime e')%Q /\
      forall b t, In (b, t) (scheduled fx) ->
        (nextNoteTime e <= t)%Q /\ (t < now + scheduleAheadTime)%Q.
Proof.
  intros Hrel Hp Hc Ht Hm.
  assert (Hb : tempo_bounded (Qmax (bpm e) (maxBpm e)) e).
  { repeat split; try assumption; [apply Q.le_max_l | apply Q.le_max_r]. }
  destruct (scheduler_while_total raises Hrel now _ e Hc Hb) as [fuel0 Htot].
  exists fuel0. intros fuel Hle.
  destruct (Htot fuel Hle) as [[e1 fx1] W].
  pose proof (scheduler_while_trace raises now fuel e Hc) as L. rewrite W in L.
  destruct L as (n & -> & S1 & _ & A1 & K & F).
  exists (set_timerID true (after n e)), (fx1 ++ [SchedulerTimeout lookahead]).
  split; [unfold scheduler; now rewrite Hp, Hc, W|].
  split; [rewrite rearmed_app, A1; reflexivity|].
  split; [exact F|].
  intros b t Hin. rewrite scheduled_timerless, S1 in Hin.
  apply In_upcoming in Hin as (k & Hk & -> & ->).
  split; [|now apply K].
  destruct k as [|k]; [apply Qle_refl|].
  apply Qlt_le_weak.
  apply (times_increase (Qmax (bpm e) (maxBpm e)) e 0 (S k) Hb). lia.
Qed.

Lemma poll_schedules_within_its_window_witness :
  exists fuel0, forall fuel, (fuel0 <= fuel)%nat ->
    exists e' fx,
      scheduler never_fails fuel 1 trainer = Returned (e', fx) /\
      rearmed fx = true /\
      (1 + scheduleAheadTime <= nextNoteTime e')%Q /\
      forall b t, In (b, t) (scheduled fx) ->
        (nextNoteTime trainer <= t)%Q /\ (t < 1 + scheduleAheadTime)%Q.
Proof.
  apply (poll_schedules_within_its_window never_fails 1 trainer).
  - intros beat time. reflexivity.
  - reflexivity.
  - reflexivity.
  - reflexivity.
  - reflexivity.
Defined.

(** ** Visual notifications *)

Lemma beat_timer_delay now e k :
  (nextNoteTime (after k e) < now + scheduleAheadTime)%Q ->
  let d := fst (fst (beat_timer now (currentBeat (after k e), nextNoteTime (after k e)))) in
  (0 <= d)%Q /\ (d < 100)%Q.
Proof.
  intros H. unfold beat_timer, scheduleAheadTime in *. simpl.
  set (x := ((nextNoteTime (after k e) - now) * 1000)%Q).
  assert (Hx : (x < 100)%Q) by (unfold x; lra).
  destruct (Q.max_spec 0 x) as [[L ->]|[L ->]]; split; lra.
Qed.

Lemma In_beat_timers now n : forall e d b t,
  In (d, b, t) (map (beat_timer now) (upcoming n e)) ->
  exists k, (k < n)%nat /\
    (d, b, t) = beat_timer now (currentBeat (after k e), nextNoteTime (after k e)).
Proof.
  intros e d b t H. apply in_map_iff in H as ([b0 t0] & E & H).
  apply In_upcoming in H as (k & Hk & -> & ->). exists k. split; [exact Hk|now symmetry].
Qed.

(** X7: when a poll returns, the one-shot timers it has armed for the beat
    callback are exactly the beats it has scheduled, in the same order and
    with the same beat index and time (none at all when no callback is
    registered), and each fires after [max(0, (time - now) * 1000)]
    milliseconds, a delay of at least 0 and less than 100 ms. *)
Theorem beat_timers_follow_the_schedule
    (raises : Z -> Q -> bool) (fuel : nat) (now : Q) (e e' : Engine) (fx : list Effect) :
  scheduler raises fuel now e = Returned (e', fx) ->
  beat_timers fx =
    (if onBeatCallback e then map (beat_timer now) (scheduled fx) else []) /\
  (forall d b t, In (d, b, t) (beat_timers fx) -> (0 <= d)%Q /\ (d < 100)%Q).
Proof.
  intros H. pose proof (scheduler_trace raises fuel now e) as T. rewrite H in T.
  destruct T as [[-> ->]|(fx0 & (n & _ & S0 & B0 & _ & K & _) & -> & _)].
  - split; [now destruct (onBeatCallback e)|]. intros d b t [].
  - rewrite beat_timers_timerless, scheduled_timerless, S0, B0.
    split; [reflexivity|].
    intros d b t Hin. destruct (onBeatCallback e); [|contradiction].
    apply In_beat_timers in Hin as (k & Hk & E).
    pose proof (beat_timer_delay now e k (K k Hk)) as D. rewrite <- E in D. exact D.
Qed.

Lemma beat_timers_follow_the_schedule_witness :
  beat_timers (effects_of (scheduler never_fails 5 1 waltz)) =
    map (beat_timer 1) (scheduled (effects_of (scheduler never_fails 5 1 waltz))) /\
  (forall d b t, In (d, b, t) (beat_timers (effects_of (scheduler never_fails 5 1 waltz))) ->
     (0 <= d)%Q /\ (d < 100)%Q).
Proof.
  apply (beat_timers_follow_the_schedule never_fails 5 1 waltz
           (set_timerID true (after 2 waltz))).
  vm_compute. reflexivity.
Defined.

(** X8: when the sound of a due beat raises, the timer for that beat's
    visual notification has already been armed: the poll leaves one beat
    timer more than it has scheduled sounds, the extra one carrying the beat
    index and time of the failing beat on which the cursor stays. *)
Theorem failing_beat_is_still_notified
    (raises : Z -> Q -> bool) (fuel : nat) (now : Q) (e e' : Engine) (fx : list Effect) :
  onBeatCallback e = true ->
  scheduler raises fuel now e = Threw (e', fx) ->
  raises (currentBeat e') (nextNoteTime e') = true /\
  beat_timers fx =
    map (beat_timer now) (scheduled fx ++ [(currentBeat e', nextNoteTime e')]).
Proof.
  intros Hcb H. pose proof (scheduler_trace raises fuel now e) as T. rewrite H in T.
  destruct T as (n & -> & S0 & B0 & _ & _ & R).
  split; [exact R|].
  rewrite B0, Hcb, S0. replace (S n) with (n + 1)%nat by lia.
  rewrite upcoming_app. reflexivity.
Qed.

Lemma failing_beat_is_still_notified_witness :
  second_beat_fails (currentBeat (after 1 waltz)) (nextNoteTime (after 1 waltz)) = true /\
  beat_timers (effects_of (scheduler second_beat_fails 5 1 waltz)) =
    map (beat_timer 1)
      (scheduled (effects_of (scheduler second_beat_fails 5 1 waltz)) ++
       [(currentBeat (after 1 waltz), nextNoteTime (after 1 waltz))]).
Proof.
  apply (failing_beat_is_still_notified second_beat_fails 5 1 waltz (after 1 waltz)).
  - reflexivity.
  - vm_compute. reflexivity.
Defined.

(** ** Start, stop and toggle *)

Lemma start_from_stopped raises fuel now suspended e :
  isPlaying e = false ->
  start raises fuel now suspended e =
    Returned
      (mkEngine true true (now + 0.1) 0 0 true
         (onBeatCallback e) (onBpmChangeCallback e) (bpm e) (beatsPerBar e)
         (soundType e) (increaseAmount e) (increaseIntervalBars e) (maxBpm e),
       (if audioContext e then [] else [ContextCreated]) ++
       (if suspended then [ContextResumed] else []) ++
       [SchedulerTimeout lookahead]).
Proof.
  intros Hp.
  destruct e as [ctx playing t b bars timer onBeat onBpm tempo perBar snd amount every ceiling].
  simpl in Hp. subst playing.
  unfold start, init, scheduler. simpl.
  destruct ctx; simpl; destruct fuel; simpl; rewrite horizon_not_before_lead_in; simpl;
    destruct suspended; reflexivity.
Qed.

(** X9: [toggle] always returns, whatever the sound backend does and
    without any loop fuel, flips [isPlaying] and schedules no beat itself;
    toggling twice leaves the engine playing or stopped as it was. *)
Theorem toggle_flips_playing
    (raises : Z -> Q -> bool) (fuel : nat) (now now' : Q) (suspended suspended' : bool)
    (e : Engine) :
  exists e1 fx1 e2 fx2,
    toggle raises fuel now suspended e = Returned (e1, fx1) /\
    isPlaying e1 = negb (isPlaying e) /\ scheduled fx1 = [] /\
    toggle raises fuel now' suspended' e1 = Returned (e2, fx2) /\
    isPlaying e2 = isPlaying e /\ scheduled fx2 = [].
Proof.
  unfold toggle at 1. destruct (isPlaying e) eqn:Hp.
  - exists (fst (stop e)), (snd (stop e)).
    assert (Hs : isPlaying (fst (stop e)) = false) by reflexivity.
    unfold toggle. rewrite Hs. rewrite (start_from_stopped _ _ _ _ _ Hs).
    eexists. eexists. split; [now destruct (stop e)|]. split; [reflexivity|].
    split; [simpl; now destruct (timerID e)|]. split; [reflexivity|].
    split; [reflexivity|].
    destruct (audioContext (fst (stop e))); destruct suspended'; reflexivity.
  - rewrite (start_from_stopped _ _ _ _ _ Hp).
    eexists. eexists. exists (fst (stop (mkEngine true true (now + 0.1) 0 0 true
         (onBeatCallback e) (onBpmChangeCallback e) (bpm e) (beatsPerBar e)
         (soundType e) (increaseAmount e) (increaseIntervalBars e) (maxBpm e)))).
    eexists. split; [reflexivity|]. split; [reflexivity|].
    split; [destruct (audioContext e); destruct suspended; reflexivity|].
    split; [reflexivity|]. split; reflexivity.
Qed.

(** X10: a poll that still fires on a stopped engine does nothing: after
    [stop()], any number of polls at any clock readings schedule no beat, arm
    no timer and leave the engine as [stop()] left it. *)
Theorem polls_after_stop_do_nothing
    (raises : Z -> Q -> bool) (fuel : nat) (nows : list Q) (e : Engine) :
  polls raises fuel nows (fst (stop e)) = Returned (fst (stop e), []).
Proof.
  induction nows as [|now rest IH]; [reflexivity|].
  simpl polls. unfold scheduler. simpl isPlaying. simpl.
  unfold stop in IH. simpl in IH. rewrite IH. reflexivity.
Qed.

(** X11: the audio context is acquired once and kept: [start()] on a
    stopped engine always leaves a context, creates one only when there was
    none, and a later [stop()] and [start()] reuse it without creating
    another. *)
Theorem audio_context_is_created_once
    (raises : Z -> Q -> bool) (fuel : nat) (now now' : Q) (suspended suspended' : bool)
    (e : Engine) :
  isPlaying e = false ->
  exists e1 fx1 e2 fx2,
    start raises fuel now suspended e = Returned (e1, fx1) /\
    audioContext e1 = true /\
    creates_context fx1 = negb (audioContext e) /\
    audioContext (fst (stop e1)) = true /\
    start raises fuel now' suspended' (fst (stop e1)) = Returned (e2, fx2) /\
    audioContext e2 = true /\ creates_context fx2 = false.
Proof.
  intros Hp. rewrite (start_from_stopped _ _ _ _ _ Hp).
  eexists. eexists. eexists. eexists.
  split; [reflexivity|]. split; [reflexivity|].
  split; [destruct (audioContext e); destruct suspended; reflexivity|].
  split; [reflexivity|].
  split; [apply start_from_stopped; reflexivity|].
  split; [reflexivity|]. simpl. destruct suspended'; reflexivity.
Qed.

Lemma audio_context_is_created_once_witness :
  exists e1 fx1 e2 fx2,
    start never_fails 0 5 true initial = Returned (e1, fx1) /\
    audioContext e1 = true /\
    creates_context fx1 = negb (audioContext initial) /\
    audioContext (fst (stop e1)) = true /\
    start never_fails 0 9 false (fst (stop e1)) = Returned (e2, fx2) /\
    audioContext e2 = true /\ creates_context fx2 = false.
Proof.
  apply (audio_context_is_created_once never_fails 0 5 9 true false initial).
  reflexivity.
Defined.

(** ** The sounds *)

Lemma half_beat_positive (bpm : Q) : (0 < bpm)%Q -> (0 < 60 / bpm / 2)%Q.
Proof.
  intros H. apply Qlt_shift_div_l; [lra|].
  assert (P : (0 < 60 / bpm)%Q) by (apply Qlt_shift_div_l; lra). lra.
Qed.

Ltac well_timed_voice :=
  unfold well_timed, voice_sources; simpl;
  split; [reflexivity|]; split; [discriminate|]; split;
  [ repeat (constructor; [simpl; repeat split; lra|]); constructor
  | first [ apply Exists_cons_hd; simpl; lra
          | apply Exists_cons_tl, Exists_cons_hd; simpl; lra ] ].

Ltac all_voices :=
  lazymatch goal with
  | |- Forall _ [] => constructor
  | |- Forall _ (_ :: _) => constructor; [well_timed_voice | all_voices]
  end.

(** X12: at positive tempo, every sound of every variant and beat index is
    made of at least one voice, and every voice is well timed: its gain is
    positive, no source starts before the beat's time, every source stops
    after it starts and not after the gain decay ends, and the decay ends
    exactly when one of its sources stops. *)
Theorem sounds_are_well_timed (s : SoundType) (beat : Z) (time bpm : Q) :
  (0 < bpm)%Q ->
  play beat time s bpm <> [] /\ Forall (well_timed time) (play beat time s bpm).
Proof.
  intros Hb. pose proof (half_beat_positive bpm Hb) as Hh.
  destruct s; unfold play, playBeep, playClick, playWoodblock, playCowbell, playKick,
    playSnare, playDrumset, playHiHat.
  1-6: destruct (beat =? 0); simpl; (split; [discriminate|]); all_voices.
  set (h := (60 / bpm / 2)%Q) in *. clearbody h.
  destruct ((beat =? 0) || (beat =? 2)); destruct ((beat =? 1) || (beat =? 3)); simpl;
    (split; [discriminate|]); all_voices.
Qed.

Lemma sounds_are_well_timed_witness :
  play 1 (1 # 10) drumset 120 <> [] /\
  Forall (well_timed (1 # 10)) (play 1 (1 # 10) drumset 120).
Proof.
  apply (sounds_are_well_timed drumset 1 (1 # 10) 120). reflexivity.
Defined.

(** X13: outside the drum set only the downbeat is told apart: every beat
    index other than 0 gets one and the same sound, and no variant but the
    drum set reads the tempo.  The drum set repeats a four-beat pattern and
    gives every beat index outside 0..3 the two hi-hats only. *)
Theorem non_accent_beats_sound_alike (s : SoundType) (beat beat' : Z) (time bpm bpm' : Q) :
  beat <> 0 -> beat' <> 0 ->
  (s <> drumset -> play beat time s bpm = play beat' time s bpm') /\
  (beat < 0 \/ 3 < beat ->
     play beat time drumset bpm =
       playHiHat time 0.3 ++ playHiHat (time + 60 / bpm / 2) 0.2).
Proof.
  intros H H'. apply Z.eqb_neq in H, H'. split.
  - intros Hs. destruct s; try congruence;
      unfold play, playBeep, playClick, playWoodblock, playCowbell, playKick, playSnare;
      rewrite H, H'; reflexivity.
  - intros Hr. unfold play, playDrumset.
    assert (E0 : (beat =? 0) = false) by (apply Z.eqb_neq; lia).
    assert (E1 : (beat =? 1) = false) by (apply Z.eqb_neq; lia).
    assert (E2 : (beat =? 2) = false) by (apply Z.eqb_neq; lia).
    assert (E3 : (beat =? 3) = false) by (apply Z.eqb_neq; lia).
    rewrite E0, E1, E2, E3. reflexivity.
Qed.

Lemma non_accent_beats_sound_alike_witness :
  play 1 (1 # 2) kick 120 = play 5 (1 # 2) kick 90 /\
  play 7 (1 # 2) drumset 120 =
    playHiHat (1 # 2) 0.3 ++ playHiHat ((1 # 2) + 60 / 120 / 2) 0.2.
Proof.
  destruct (non_accent_beats_sound_alike kick 1 5 (1 # 2) 120 90) as [A _];
    [discriminate | discriminate |].
  destruct (non_accent_beats_sound_alike drumset 7 7 (1 # 2) 120 120) as [_ B];
    [discriminate | discriminate |].
  split; [apply A; discriminate | apply B; right; reflexivity].
Defined.

(** X14: the drum set's second hi-hat falls exactly halfway between the beat
    being scheduled and the next one: [playDrumset] and [nextNote] read the
    same tempo, the ramp being applied only after the cursor has moved. *)
Theorem offbeat_hihat_is_midway (e : Engine) :
  (0 < bpm e)%Q ->
  exists kit offbeat,
    play (currentBeat e) (nextNoteTime e) drumset (bpm e) = kit ++ [offbeat] /\
    Forall (fun s => (source_start s ==
                      (nextNoteTime e + nextNoteTime (fst (nextNote e))) / 2)%Q)
           (voice_sources offbeat).
Proof.
  intros Hb. rewrite nextNote_time. unfold play, playDrumset, playHiHat.
  eexists. eexists. split.
  - rewrite !app_assoc. reflexivity.
  - unfold voice_sources. simpl. constructor; [|constructor]. simpl. field. lra.
Qed.

Lemma offbeat_hihat_is_midway_witness :
  exists kit offbeat,
    play (currentBeat trainer) (nextNoteTime trainer) drumset (bpm trainer) =
      kit ++ [offbeat] /\
    Forall (fun s => (source_start s ==
                      (nextNoteTime trainer + nextNoteTime (fst (nextNote trainer))) / 2)%Q)
           (voice_sources offbeat).
Proof. apply (offbeat_hihat_is_midway trainer). reflexivity. Defined.

(** ** The tempo shown to the user *)

Lemma scheduleNote_notifies_no_tempo raises beat time now e :
  notified_tempos
    (match scheduleNote raises beat time now e with
     | Returned fx => fx
     | Threw fx => fx
     | OutOfFuel => []
     end) = [].
Proof.
  unfold scheduleNote.
  destruct (audioContext e); simpl; [|reflexivity].
  destruct (raises beat time); destruct (onBeatCallback e); reflexivity.
Qed.

Lemma scheduler_while_notified raises now fuel : forall e,
  match scheduler_while raises fuel now e with
  | Returned (e', fx) | Threw (e', fx) =>
      exists n, e' = after n e /\
                notified_tempos fx = notified_tempos (notifications n e)
  | OutOfFuel => True
  end.
Proof.
  induction fuel as [|fuel IH]; intros e.
  - simpl. destruct (Qltb (nextNoteTime e) (now + scheduleAheadTime)); [exact I|].
    now exists 0%nat.
  - simpl. destruct (Qltb (nextNoteTime e) (now + scheduleAheadTime)); [|now exists 0%nat].
    pose proof (scheduleNote_notifies_no_tempo raises (currentBeat e) (nextNoteTime e) now e)
      as N.
    destruct (scheduleNote raises (currentBeat e) (nextNoteTime e) now e) as [fx1|fx1|];
      [|now exists 0%nat|exact I].
    specialize (IH (fst (nextNote e))).
    destruct (nextNote e) as [e1 fx2] eqn:E. simpl in IH.
    destruct (scheduler_while raises fuel now e1) as [[e2 fx3]|[e2 fx3]|]; simpl;
      [| |exact I].
    + destruct IH as (n & -> & H). exists (S n). simpl. rewrite E. simpl.
      split; [reflexivity|]. now rewrite !notified_tempos_app, N, H.
    + destruct IH as (n & -> & H). exists (S n). simpl. rewrite E. simpl.
      split; [reflexivity|]. now rewrite !notified_tempos_app, N, H.
Qed.

Lemma tempo_is_last_notified e n :
  onBpmChangeCallback e = true ->
  bpm (after n e) =
    match last (notified_tempos (notifications n e)) with
    | Some v => v
    | None => bpm e
    end.
Proof.
  intros Hcb. induction n as [|n IH]; [reflexivity|].
  replace (S n) with (n + 1)%nat at 2 by lia.
  rewrite after_S, notifications_app, notified_tempos_app. simpl notifications.
  rewrite app_nil_r, nextNote_bpm, nextNote_effects.
  destruct (after_settings n e) as (_ & _ & _ & _ & _ & _ & _ & _ & ->). rewrite Hcb.
  rewrite andb_true_r.
  destruct (ramp_due (after n e) && negb (Qeq_bool (candidate (after n e)) (bpm (after n e)))).
  - simpl notified_tempos. now rewrite last_snoc.
  - simpl notified_tempos. rewrite app_nil_r. exact IH.
Qed.

(** X15: the tempo shown to the user stays in step with the engine: when a
    tempo-change consumer is registered, the engine's tempo after a poll --
    whether the poll returned or a note raised -- is the last tempo the poll
    notified, or the tempo it started with when it notified none; feeding
    the notified tempo back through [setSettings] therefore leaves the
    engine's tempo as it is. *)
Theorem engine_tempo_is_the_last_notified
    (raises : Z -> Q -> bool) (fuel : nat) (now : Q) (e : Engine) :
  onBpmChangeCallback e = true ->
  match scheduler raises fuel now e with
  | Returned (e', fx) | Threw (e', fx) =>
      bpm e' = match last (notified_tempos fx) with
               | Some v => v
               | None => bpm e
               end
  | OutOfFuel => True
  end.
Proof.
  intros Hcb. unfold scheduler.
  destruct (negb (isPlaying e) || negb (audioContext e)); [reflexivity|].
  pose proof (scheduler_while_notified raises now fuel e) as N.
  destruct (scheduler_while raises fuel now e) as [[e1 fx1]|[e1 fx1]|]; [| |exact I].
  - destruct N as (n & -> & H).
    rewrite notified_tempos_app, H. simpl. rewrite app_nil_r.
    now apply tempo_is_last_notified.
  - destruct N as (n & -> & H). rewrite H. now apply tempo_is_last_notified.
Qed.

Lemma engine_tempo_is_the_last_notified_witness :
  match scheduler never_fails 40 7 steady_climb with
  | Returned (e', fx) | Threw (e', fx) =>
      bpm e' = match last (notified_tempos fx) with
               | Some v => v
               | None => bpm steady_climb
               end
  | OutOfFuel => True
  end.
Proof.
  apply (engine_tempo_is_the_last_notified never_fails 40 7 steady_climb). reflexivity.
Defined.

(** ** Polls that fire twice, and steady tempo *)

(** X16: a poll that fires again without the clock having advanced -- or
    with an earlier reading -- schedules nothing and arms no beat timer,
    whatever the backend: after a poll has returned, the cursor is beyond the
    horizon of every reading up to that poll's, so no beat is ever scheduled
    twice. *)
Theorem repeated_poll_schedules_nothing
    (raises raises' : Z -> Q -> bool) (fuel fuel' : nat) (now now' : Q)
    (e e' : Engine) (fx : list Effect) :
  scheduler raises fuel now e = Returned (e', fx) ->
  (now' <= now)%Q ->
  exists fx',
    scheduler raises' fuel' now' e' = Returned (e', fx') /\
    scheduled fx' = [] /\ beat_timers fx' = [].
Proof.
  intros H Hle. pose proof (scheduler_trace raises fuel now e) as T. rewrite H in T.
  destruct T as [[-> ->]|(fx0 & (n & E & _ & _ & _ & _ & F) & -> & Ht & Hp)].
  - unfold scheduler in H.
    destruct (negb (isPlaying e) || negb (audioContext e)) eqn:G.
    + exists []. unfold scheduler. rewrite G. repeat split.
    + destruct (scheduler_while raises fuel now e) as [[e1 fx1]|[e1 fx1]|];
        try discriminate.
      injection H as _ H. destruct fx1; discriminate.
  - assert (Ee : e' = set_timerID true (after n e)).
    { rewrite <- E, set_timerID_idem, <- Ht. symmetry. apply set_timerID_same. }
    assert (Hd : (now' + scheduleAheadTime <= nextNoteTime e')%Q).
    { rewrite Ee. simpl. lra. }
    unfold scheduler.
    destruct (negb (isPlaying e') || negb (audioContext e')).
    + exists []. repeat split.
    + rewrite (scheduler_while_done raises' now' fuel' e' Hd).
      exists ([] ++ [SchedulerTimeout lookahead]). split; [|split; reflexivity].
      assert (I2 : set_timerID true e' = e') by (rewrite Ee; reflexivity).
      now rewrite I2.
Qed.

Lemma repeated_poll_schedules_nothing_witness :
  exists fx',
    scheduler downbeat_fails 0 1 (set_timerID true (after 2 waltz)) =
      Returned (set_timerID true (after 2 waltz), fx') /\
    scheduled fx' = [] /\ beat_timers fx' = [].
Proof.
  apply (repeated_poll_schedules_nothing never_fails downbeat_fails 5 0 1 1 waltz
           (set_timerID true (after 2 waltz))
           (effects_of (scheduler never_fails 5 1 waltz))).
  - vm_compute. reflexivity.
  - vm_compute. discriminate.
Defined.

(** X17: with the trainer off and a non-zero tempo the beats do not drift:
    the [n]-th beat after the cursor lies exactly [n * 60 / bpm] seconds
    after it, whenever and however often the polls fire. *)
Theorem steady_tempo_does_not_drift (e : Engine) (n : nat) :
  (increaseAmount e <= 0)%Q \/ increaseIntervalBars e <= 0 ->
  ~ (bpm e == 0)%Q ->
  (nextNoteTime (after n e) == nextNoteTime e + inject_Z (Z.of_nat n) * (60 / bpm e))%Q.
Proof.
  intros Hoff Hb. induction n as [|n IH].
  - simpl. change (inject_Z 0) with 0%Q. ring.
  - rewrite after_S, nextNote_time, IH.
    destruct (trainer_off_keeps_tempo e n Hoff) as [-> _].
    rewrite Nat2Z.inj_succ. unfold Z.succ. rewrite inject_Z_plus.
    change (inject_Z 1) with 1%Q. ring.
Qed.

Lemma steady_tempo_does_not_drift_witness :
  (nextNoteTime (after 240 waltz) ==
   nextNoteTime waltz + inject_Z (Z.of_nat 240) * (60 / bpm waltz))%Q.
Proof.
  apply (steady_tempo_does_not_drift waltz 240).
  - left. vm_compute. discriminate.
  - vm_compute. discriminate.
Defined.

(** * Presets *)

Import App.

(** ** Export followed by import *)

Lemma exported_then_imported (date : string) (exported current : State) :
  settings exported !! "soundType" = None ->
  importPreset (Some (exportedFile date exported)) current =
    (mkState (serialised <$> settings exported)
       (if truthy (serialised (App.soundType exported))
        then serialised (App.soundType exported) else App.soundType current)
       (App.isPlaying current)
       (if App.isPlaying current then currentBpm current
        else (serialised <$> settings exported) !! "startBpm"),
     []).
Proof.
  intros Hno. unfold importPreset, exportedFile, exportPreset, JSON_stringify.
  simpl JSON_parse. cbv beta iota. unfold getProperty, ownProperties.
  rewrite !fmap_insert, fmap_empty.
  rewrite lookup_insert_ne by discriminate. rewrite lookup_insert_eq.
  simpl serialised. rewrite fmap_insert.
  simpl truthy. cbv beta iota.
  rewrite lookup_insert_eq, delete_insert_eq.
  rewrite delete_id by (now rewrite lookup_fmap, Hno).
  reflexivity.
Qed.

Lemma settingsObject_writable (p : PracticeSettings) :
  serialised <$> settingsObject p = settingsObject p.
Proof. unfold settingsObject. now rewrite !fmap_insert, fmap_empty. Qed.

Lemma settingsObject_has_no_soundType (p : PracticeSettings) :
  settingsObject p !! "soundType" = None.
Proof.
  unfold settingsObject. rewrite !lookup_insert_ne by discriminate. apply lookup_empty.
Qed.

Lemma soundTypeName_truthy (s : SoundType) : truthy (JStr (soundTypeName s)) = true.
Proof. now destruct s. Qed.

(** C9 (amended): when the five settings are finite numbers and the sound
    variant is one of the selectable ones, exporting the current settings and
    importing the exported file reproduces the exported settings object and
    sound variant, whatever the component held at import: [startBpm],
    [maxBpm], [increaseAmount], [increaseIntervalBars], [beatsPerBar] and the
    sound variant all come back as they were, and no failure is shown. *)
Theorem export_import_roundtrip (date : string) (p : PracticeSettings)
    (sound : SoundType) (playing : bool) (tempo : option json) (current : State) :
  let exported := mkState (settingsObject p) (JStr (soundTypeName sound)) playing tempo in
  let result := importPreset (Some (exportedFile date exported)) current in
  settings (fst result) = settingsObject p /\
  App.soundType (fst result) = JStr (soundTypeName sound) /\
  snd result = [] /\
  settings (fst result) !! "startBpm" = Some (JNum (startBpm p)) /\
  settings (fst result) !! "maxBpm" = Some (JNum (App.maxBpm p)) /\
  settings (fst result) !! "increaseAmount" = Some (JNum (App.increaseAmount p)) /\
  settings (fst result) !! "increaseIntervalBars" =
    Some (JNum (App.increaseIntervalBars p)) /\
  settings (fst result) !! "beatsPerBar" = Some (JNum (App.beatsPerBar p)).
Proof.
  intros exported result. subst result exported.
  rewrite exported_then_imported by apply settingsObject_has_no_soundType.
  cbn [settings App.soundType App.isPlaying fst snd serialised].
  rewrite settingsObject_writable, soundTypeName_truthy.
  unfold settingsObject.
  repeat split;
    repeat (first [rewrite lookup_insert_eq; reflexivity
                  | rewrite lookup_insert_ne by discriminate]).
Qed.

(** C9 as stated fails, a setting that is not a finite number being written
    as [null].  A preset whose [startBpm] is the numeral [1e999] is imported
    as [Infinity]; exporting the state then held and importing the exported
    file gives [startBpm] as [null].  And after the import of a preset whose
    [settings] is the number 1, which leaves no setting at all, the minus
    button of the "Time Signature" knob computes [Math.max(1, undefined - 1)],
    [NaN]; exported and imported again, [beatsPerBar] is [null]. *)
Lemma unwritable_setting_comes_back_null :
  (let exported := fst (importPreset (Some hugeTempoFile) App.initial) in
   let result := importPreset (Some (exportedFile "2024-01-01" exported)) customised in
   settings exported !! "startBpm" = Some (JInfinity false) /\
   settings (fst result) !! "startBpm" = Some JNull /\
   settings (fst result) <> settings exported) /\
  (let exported :=
     Panel.gestures [Panel.Handled (Import (Some numericSettingsFile));
                     Panel.MinusPressed Panel.timeSignature (finite 0)] App.initial in
   let result := importPreset (Some (exportedFile "2024-01-01" exported)) customised in
   settings exported !! "beatsPerBar" = Some JNaN /\
   settings (fst result) !! "beatsPerBar" = Some JNull /\
   settings (fst result) <> settings exported).
Proof.
  assert (D : forall (key : string) (m1 m2 : gmap string json) (v1 v2 : json),
            m1 !! key = Some v1 -> m2 !! key = Some v2 -> v1 <> v2 -> m1 <> m2).
  { intros key m1 m2 v1 v2 H1 H2 Hv E. rewrite E, H2 in H1. congruence. }
  split; intros exported result.
  - assert (A : settings exported !! "startBpm" = Some (JInfinity false))
      by (vm_compute; reflexivity).
    assert (B : settings (fst result) !! "startBpm" = Some JNull).
    { subst result. rewrite exported_then_imported by (vm_compute; reflexivity).
      cbn [fst settings]. rewrite lookup_fmap, A. reflexivity. }
    split; [exact A|]. split; [exact B|].
    apply (D "startBpm" _ _ _ _ B A). discriminate.
  - assert (A : settings exported !! "beatsPerBar" = Some JNaN)
      by (vm_compute; reflexivity).
    assert (B : settings (fst result) !! "beatsPerBar" = Some JNull).
    { subst result. rewrite exported_then_imported by (vm_compute; reflexivity).
      cbn [fst settings]. rewrite lookup_fmap, A. reflexivity. }
    split; [exact A|]. split; [exact B|].
    apply (D "beatsPerBar" _ _ _ _ B A). discriminate.
Qed.

(** ** Import of a file without [settings] *)

(** C8: what [importPreset] does with a JSON document that has no
    [settings] object.  With no [settings] property the state is left as it
    was and nothing is shown to the user, although a file that is not JSON is
    reported; with a [settings] that is a number the settings object is
    replaced by an empty one, again without any report. *)
Theorem import_without_settings_object :
  importPreset (Some nameOnlyFile) customised = (customised, []) /\
  importPreset (Some NotJSON) customised = (customised, importFailure) /\
  importPreset (Some numericSettingsFile) customised =
    (mkState ∅ (JStr "cowbell") false None, []).
Proof. repeat split; vm_compute; reflexivity. Qed.

(** * Further properties of the presets *)

(** X18: a preset whose [settings] has no [soundType], or a falsy one, is
    imported without complaint: the settings object is replaced by the
    imported one and the sound variant stays what it was. *)
Theorem import_without_soundType_keeps_sound
    (top imported : gmap string json) (st : State) :
  top !! "settings" = Some (JObj imported) ->
  match imported !! "soundType" with
  | None => True
  | Some v => truthy v = false
  end ->
  importPreset (Some (Document (JObj top))) st =
    (mkState (delete "soundType" imported) (App.soundType st) (App.isPlaying st)
       (if App.isPlaying st then currentBpm st else imported !! "startBpm"),
     []).
Proof.
  intros Hs Hv. unfold importPreset. simpl JSON_parse. cbv beta iota.
  unfold getProperty. simpl ownProperties. rewrite Hs. simpl truthy. cbv beta iota.
  simpl ownProperties. rewrite lookup_delete_ne by discriminate.
  destruct (imported !! "soundType") as [v|]; [rewrite Hv|]; reflexivity.
Qed.

Lemma import_without_soundType_keeps_sound_witness :
  importPreset (Some silentPresetFile) customised =
    (mkState (<["startBpm" := JNum 90]> (<["beatsPerBar" := JNum 5]> ∅))
       (JStr "cowbell") false (Some (JNum 90)), []).
Proof.
  unfold silentPresetFile.
  rewrite (import_without_soundType_keeps_sound
             (<["settings" :=
                JObj (<["startBpm" := JNum 90]> (<["beatsPerBar" := JNum 5]> ∅))]> ∅)
             (<["startBpm" := JNum 90]> (<["beatsPerBar" := JNum 5]> ∅)) customised).
  - vm_compute. reflexivity.
  - reflexivity.
  - vm_compute. exact I.
Defined.

Lemma importPreset_cases (text : FileText) (st : State) :
  (text = NotJSON \/ text = Document JNull) /\
    importPreset (Some text) st = (st, importFailure) \/
  (text <> NotJSON /\ text <> Document JNull) /\
    snd (importPreset (Some text) st) = [].
Proof.
  destruct text as [|v].
  - left. split; [now left | reflexivity].
  - destruct v as [|b|q|s|l|m| |negative].
    1: left; split; [now right | reflexivity].
    all: right; split; [split; discriminate|].
    all: unfold importPreset; simpl JSON_parse; cbv beta iota; unfold getProperty.
    all: match goal with
         | |- context [?m !! "settings"] =>
             destruct (m !! "settings") as [presetSettings|]; [|reflexivity]
         end.
    all: destruct (truthy presetSettings); reflexivity.
Qed.

(** X19: [importPreset] shows the failure notices exactly when the text is
    not JSON or is the JSON value [null]; it then leaves the state untouched.
    Every other document, whatever its shape, is taken without any notice. *)
Theorem import_reports_only_unreadable_text (text : FileText) (st : State) :
  (snd (importPreset (Some text) st) = importFailure <->
   text = NotJSON \/ text = Document JNull) /\
  (snd (importPreset (Some text) st) <> [] -> fst (importPreset (Some text) st) = st) /\
  (snd (importPreset (Some text) st) = importFailure \/
   snd (importPreset (Some text) st) = []).
Proof.
  destruct (importPreset_cases text st) as [[Ht E]|[[N1 N2] E]].
  - rewrite E. simpl. split; [split; [intros _; exact Ht | reflexivity]|].
    split; [reflexivity | now left].
  - rewrite E. split; [split; [discriminate | intros [H|H]; contradiction]|].
    split; [intros H; contradiction | now right].
Qed.

(** X20: importing the same file twice is the same as importing it once. *)
Theorem import_is_idempotent (file : option FileText) (st : State) :
  importPreset file (fst (importPreset file st)) = importPreset file st.
Proof.
  destruct file as [[|v]|]; try reflexivity.
  destruct v as [|b|q|s|l|m| |negative]; try reflexivity.
  all: unfold importPreset; simpl JSON_parse; cbv beta iota; unfold getProperty.
  all: match goal with
       | |- context [?m !! "settings"] =>
           destruct (m !! "settings") as [presetSettings|] eqn:E; [|reflexivity]
       end.
  all: destruct (truthy presetSettings) eqn:T; [|reflexivity].
  all: simpl fst; cbv beta iota; simpl.
  all: destruct (ownProperties presetSettings !! "soundType") as [snd|];
         [destruct (truthy snd)|]; destruct (App.isPlaying st); reflexivity.
Qed.

(** ** States that can be exported faithfully *)

Lemma initial_exportable : exportable App.initial.
Proof. split; [apply settingsObject_has_no_soundType | reflexivity]. Qed.

Lemma import_keeps_exportable (file : option FileText) (st : State) :
  exportable st -> exportable (fst (importPreset file st)).
Proof.
  intros [Hs Ht]. destruct file as [[|v]|]; try (split; assumption).
  destruct v as [|b|q|s|l|m| |negative]; try (split; assumption).
  all: unfold importPreset; simpl JSON_parse; cbv beta iota; unfold getProperty.
  all: match goal with
       | |- context [?m !! "settings"] =>
           destruct (m !! "settings") as [presetSettings|]; [|split; assumption]
       end.
  all: destruct (truthy presetSettings); [|split; assumption].
  all: split; simpl; [apply lookup_delete_eq|].
  all: destruct (ownProperties presetSettings !! "soundType") as [snd|]; [|exact Ht].
  all: destruct (truthy snd) eqn:T; [exact T | exact Ht].
Qed.

Lemma setField_keeps_exportable (key : string) (v : number) (st : State) :
  key <> "soundType" -> exportable st -> exportable (setField key v st).
Proof.
  intros Hk [Hs Ht]. split; [|exact Ht].
  simpl. now rewrite lookup_insert_ne.
Qed.

Lemma perform_keeps_exportable (a : Action) (st : State) :
  exportable st -> exportable (perform a st).
Proof.
  intros H. destruct a as [file|v|v|v|v|v|s| |v]; simpl.
  - now apply import_keeps_exportable.
  - unfold onStartBpmChange.
    pose proof (setField_keeps_exportable "startBpm" v st ltac:(discriminate) H) as [A B].
    destruct (App.isPlaying st); split; assumption.
  - apply setField_keeps_exportable; [discriminate | exact H].
  - apply setField_keeps_exportable; [discriminate | exact H].
  - apply setField_keeps_exportable; [discriminate | exact H].
  - apply setField_keeps_exportable; [discriminate | exact H].
  - destruct H as [Hs _]. split; [exact Hs | apply soundTypeName_truthy].
  - unfold togglePlay. destruct (App.isPlaying st); exact H.
  - exact H.
Qed.

Lemma gesture_keeps_exportable (g : Panel.Gesture) (st : State) :
  exportable st -> exportable (Panel.gesture g st).
Proof.
  intros H. destruct g as [a|k viaText|k viaText]; simpl;
    apply perform_keeps_exportable; exact H.
Qed.

Lemma gestures_keep_exportable (gs : list Panel.Gesture) : forall st,
  exportable st -> exportable (Panel.gestures gs st).
Proof.
  induction gs as [|g rest IH]; intros st H; [exact H|].
  simpl. apply IH. now apply gesture_keeps_exportable.
Qed.

(** X21: whatever has happened since the component was first rendered --
    files of any shape imported, the buttons of the knobs pressed on whatever
    the settings then held, the dial and the sliders handing over any number,
    sounds chosen, play toggled -- exporting the state reached and importing
    the exported file, into any state, shows no notice and loses no property:
    the settings come back with every [NaN] and infinity replaced by [null]
    and are otherwise those exported, and the sound variant comes back
    likewise unless that makes it [null], in which case the importing
    component keeps its own.  So a state that holds neither [NaN] nor an
    infinity comes back exactly. *)
Theorem every_reached_state_round_trips
    (gs : list Panel.Gesture) (date : string) (current : State) :
  let reached := Panel.gestures gs App.initial in
  let result := importPreset (Some (exportedFile date reached)) current in
  settings (fst result) = serialised <$> settings reached /\
  (forall key, settings (fst result) !! key = serialised <$> (settings reached !! key)) /\
  App.soundType (fst result) =
    (if truthy (serialised (App.soundType reached))
     then serialised (App.soundType reached) else App.soundType current) /\
  snd result = [] /\
  (writable reached ->
   settings (fst result) = settings reached /\
   App.soundType (fst result) = App.soundType reached).
Proof.
  intros reached result. subst result.
  destruct (gestures_keep_exportable gs _ initial_exportable) as [Hs Ht].
  fold reached in Hs, Ht.
  rewrite (exported_then_imported date reached current Hs).
  cbn [fst snd settings App.soundType].
  split; [reflexivity|]. split; [intros key; apply lookup_fmap|].
  split; [reflexivity|]. split; [reflexivity|].
  intros [Ws Wt]. rewrite Ws, Wt, Ht. split; reflexivity.
Qed.

Lemma every_reached_state_round_trips_witness :
  let reached :=
    Panel.gestures [Panel.Handled (Import (Some silentPresetFile));
                    Panel.PlusPressed Panel.timeSignature (finite 0);
                    Panel.Handled (SoundChosen snare);
                    Panel.Handled PlayToggled] App.initial in
  let result := importPreset (Some (exportedFile "2024-01-01" reached)) customised in
  settings (fst result) = settings reached /\
  App.soundType (fst result) = App.soundType reached.
Proof.
  intros reached result.
  apply (every_reached_state_round_trips
           [Panel.Handled (Import (Some silentPresetFile));
            Panel.PlusPressed Panel.timeSignature (finite 0);
            Panel.Handled (SoundChosen snare);
            Panel.Handled PlayToggled] "2024-01-01" customised).
  split; vm_compute; reflexivity.
Defined.

(** X22: an applied import replaces the settings object wholesale: after
    importing a document whose [settings] is truthy, the settings hold
    exactly the own properties of that value other than [soundType], whatever
    they held before; a property the file leaves out is gone. *)
Theorem import_replaces_settings_wholesale
    (top : gmap string json) (presetSettings : json) (st : State) (key : string) :
  top !! "settings" = Some presetSettings ->
  truthy presetSettings = true ->
  settings (fst (importPreset (Some (Document (JObj top))) st)) !! key =
    if decide (key = "soundType") then None else ownProperties presetSettings !! key.
Proof.
  intros Hs Ht. unfold importPreset. simpl JSON_parse. cbv beta iota.
  unfold getProperty. simpl ownProperties at 1. rewrite Hs, Ht. simpl.
  destruct (decide (key = "soundType")) as [->|Hk].
  - apply lookup_delete_eq.
  - now rewrite lookup_delete_ne.
Qed.

Lemma import_replaces_settings_wholesale_witness :
  settings (fst (importPreset (Some silentPresetFile) customised)) !! "maxBpm" = None /\
  settings (fst (importPreset (Some numericSettingsFile) customised)) !! "startBpm" = None.
Proof.
  split.
  - unfold silentPresetFile.
    rewrite (import_replaces_settings_wholesale _
               (JObj (<["startBpm" := JNum 90]> (<["beatsPerBar" := JNum 5]> ∅)))
               customised "maxBpm"); reflexivity.
  - unfold numericSettingsFile.
    rewrite (import_replaces_settings_wholesale _ (JNum 1) customised "startBpm");
      reflexivity.
Defined.

(** * The knob and the tempo dial *)

Import TempoRangeCircle.

(** On a setting that is a finite number the buttons of the knob hand over
    the results of [minusClicked] and [plusClicked]; on a missing setting
    both hand over [NaN]. *)
Lemma buttons_on_a_number (min max value : Q) :
  Knob.minusPressed min (Some (App.JNum value)) =
    Some (App.finite (Knob.minusClicked min value)) /\
  Knob.plusPressed max (Some (App.JNum value)) =
    Some (App.finite (Knob.plusClicked max value)) /\
  Knob.minusPressed min None = Some App.NaN /\
  Knob.plusPressed max None = Some App.NaN.
Proof. repeat split. Qed.

(** X23: the two buttons of a knob with [min <= max]: the minus button never
    gives less than [min], the plus button never more than [max]; a value
    within the range stays within it, moves by exactly one unless it sits on
    the end it is pushed against, and a step that is not clamped is undone by
    the opposite button.  A value more than one above [max] (an imported one,
    say) is still above [max] after the minus button. *)
Theorem knob_buttons_respect_the_range (min max value : Q) :
  (min <= max)%Q ->
  (min <= Knob.minusClicked min value)%Q /\
  (Knob.plusClicked max value <= max)%Q /\
  ((min <= value)%Q -> (value <= max)%Q ->
     (Knob.minusClicked min value <= max)%Q /\ (min <= Knob.plusClicked max value)%Q /\
     (Knob.minusClicked min value == if Qle_bool (min + 1) value then value - 1 else min)%Q /\
     (Knob.plusClicked max value == if Qle_bool (value + 1) max then value + 1 else max)%Q) /\
  ((min + 1 <= value)%Q -> (value <= max)%Q ->
     (Knob.plusClicked max (Knob.minusClicked min value) == value)%Q) /\
  ((min <= value)%Q -> (value + 1 <= max)%Q ->
     (Knob.minusClicked min (Knob.plusClicked max value) == value)%Q) /\
  ((max + 1 < value)%Q -> (max < Knob.minusClicked min value)%Q).
Proof.
  intros Hr. unfold Knob.minusClicked, Knob.plusClicked.
  split; [apply Q.le_max_l|]. split; [apply Q.le_min_l|].
  split; [|split; [|split]].
  - intros H1 H2.
    destruct (Q.max_spec min (value - 1)) as [[L E]|[L E]];
      destruct (Q.min_spec max (value + 1)) as [[L' E']|[L' E']];
      rewrite E, E';
      destruct (Qle_bool (min + 1) value) eqn:B1;
      destruct (Qle_bool (value + 1) max) eqn:B2;
      try (apply Qle_bool_iff in B1); try (apply Qle_bool_iff in B2);
      try (assert (~ (min + 1 <= value)%Q)
             by (intros C; apply Qle_bool_iff in C; congruence));
      try (assert (~ (value + 1 <= max)%Q)
             by (intros C; apply Qle_bool_iff in C; congruence));
      repeat split; lra.
  - intros H1 H2.
    destruct (Q.max_spec min (value - 1)) as [[L E]|[L E]].
    + destruct (Q.min_spec max (Qmax min (value - 1) + 1)) as [[L' E']|[L' E']];
        rewrite E'; rewrite ?E in *; lra.
    + destruct (Q.min_spec max (Qmax min (value - 1) + 1)) as [[L' E']|[L' E']];
        rewrite E'; rewrite ?E in *; lra.
  - intros H1 H2.
    destruct (Q.min_spec max (value + 1)) as [[L E]|[L E]].
    + destruct (Q.max_spec min (Qmin max (value + 1) - 1)) as [[L' E']|[L' E']];
        rewrite E'; rewrite ?E in *; lra.
    + destruct (Q.max_spec min (Qmin max (value + 1) - 1)) as [[L' E']|[L' E']];
        rewrite E'; rewrite ?E in *; lra.
  - intros H. destruct (Q.max_spec min (value - 1)) as [[L E]|[L E]]; rewrite E; lra.
Qed.

Lemma knob_buttons_respect_the_range_witness :
  (1 <= Knob.minusClicked 1 1)%Q /\ (Knob.plusClicked 12 12 <= 12)%Q /\
  (Knob.plusClicked 12 (Knob.minusClicked 1 4) == 4)%Q /\
  (12 < Knob.minusClicked 1 50)%Q.
Proof.
  destruct (knob_buttons_respect_the_range 1 12 1) as (A & _);
    [vm_compute; discriminate|].
  destruct (knob_buttons_respect_the_range 1 12 12) as (_ & B & _);
    [vm_compute; discriminate|].
  destruct (knob_buttons_respect_the_range 1 12 4) as (_ & _ & _ & C & _);
    [vm_compute; discriminate|].
  destruct (knob_buttons_respect_the_range 1 12 50) as (_ & _ & _ & _ & _ & D);
    [vm_compute; discriminate|].
  split; [exact A|]. split; [exact B|].
  split; [apply C; vm_compute; discriminate | apply D; reflexivity].
Defined.

(** ** Reading a tempo off the dial *)

Lemma round_of_clamped (x : Q) (lo hi : Z) :
  (inject_Z lo <= x)%Q -> (x <= inject_Z hi)%Q ->
  lo <= Math_round x <= hi.
Proof.
  intros Hl Hh. unfold Math_round. split.
  - rewrite <- (Qfloor_Z lo). apply Qfloor_resp_le. lra.
  - assert (L : Qfloor (x + (1 # 2)) < hi + 1); [|lia].
    rewrite Zlt_Qlt, inject_Z_plus. change (inject_Z 1) with 1%Q.
    pose proof (Qfloor_le (x + (1 # 2))). lra.
Qed.

Lemma round_of_integer (x : Q) (b : Z) : (x == inject_Z b)%Q -> Math_round x = b.
Proof.
  intros E. unfold Math_round.
  assert (L1 : b <= Qfloor (x + (1 # 2))).
  { rewrite <- (Qfloor_Z b). apply Qfloor_resp_le. lra. }
  assert (L2 : Qfloor (x + (1 # 2)) < b + 1); [|lia].
  rewrite Zlt_Qlt, inject_Z_plus. change (inject_Z 1) with 1%Q.
  pose proof (Qfloor_le (x + (1 # 2))). lra.
Qed.

(** X24: with its container in place the dial reads an integer tempo between
    [MIN_BPM] (30) and [MAX_BPM] (300) off every pointer direction whatever;
    without a container it reads 0. *)
Theorem dial_reads_a_tempo_in_range (direction : Q) :
  30 <= calculateBpmFromPosition true direction <= 300 /\
  calculateBpmFromPosition false direction = 0.
Proof.
  split; [|reflexivity].
  unfold calculateBpmFromPosition. simpl negb. cbv beta iota zeta.
  apply round_of_clamped.
  - apply Q.le_max_l.
  - apply Q.max_lub; [vm_compute; discriminate | apply Q.le_min_l].
Qed.

Lemma Qle_bool_false (a b : Q) : Qle_bool a b = false -> (b < a)%Q.
Proof.
  intros H. apply Qnot_le_lt. intros C. apply Qle_bool_iff in C. congruence.
Qed.

Lemma reading_of_mark (eff x : Q) :
  (30 <= x)%Q -> (x <= 300)%Q -> (eff == x + 195)%Q ->
  (Qmax MIN_BPM
     (Qmin MAX_BPM
        (MIN_BPM + (Qmax START_ANGLE (Qmin END_ANGLE eff) - START_ANGLE) / TOTAL_ANGLE
                   * (MAX_BPM - MIN_BPM))) == x)%Q.
Proof.
  intros H1 H2 He. unfold TOTAL_ANGLE. unfold MIN_BPM, MAX_BPM, START_ANGLE, END_ANGLE.
  set (c := Qmax 225 (Qmin 495 eff)).
  assert (Hc : (c == eff)%Q).
  { unfold c. destruct (Q.min_spec 495 eff) as [[L E]|[L E]];
      destruct (Q.max_spec 225 (Qmin 495 eff)) as [[L' E']|[L' E']]; lra. }
  assert (Hx : (30 + (c - 225) / (495 - 225) * (300 - 30) == x)%Q).
  { rewrite Hc, He. field. }
  set (y := (30 + (c - 225) / (495 - 225) * (300 - 30))%Q) in *. clearbody y.
  destruct (Q.min_spec 300 y) as [[L E]|[L E]];
    destruct (Q.max_spec 30 (Qmin 300 y)) as [[L' E']|[L' E']]; lra.
Qed.

Ltac comparisons_as_props :=
  repeat match goal with
         | H : Qltb _ _ = true |- _ => apply Qltb_true in H
         | H : Qltb _ _ = false |- _ => apply Qltb_false in H
         | H : Qle_bool _ _ = true |- _ => apply Qle_bool_iff in H
         | H : Qle_bool _ _ = false |- _ => apply Qle_bool_false in H
         end.

(** X25: the marks of the dial and its reading agree: the mark of an integer
    tempo between 30 and 300 is drawn between [START_ANGLE] and [END_ANGLE],
    and a pointer sitting on that mark is read back as exactly that tempo. *)
Theorem dial_reads_back_its_own_marks (b : Z) :
  30 <= b <= 300 ->
  (START_ANGLE <= bpmToAngle (inject_Z b))%Q /\
  (bpmToAngle (inject_Z b) <= END_ANGLE)%Q /\
  calculateBpmFromPosition true (directionOfMark (bpmToAngle (inject_Z b))) = b.
Proof.
  intros [Hl Hh].
  assert (H1 : (30 <= inject_Z b)%Q)
    by (change 30%Q with (inject_Z 30); now rewrite <- Zle_Qle).
  assert (H2 : (inject_Z b <= 300)%Q)
    by (change 300%Q with (inject_Z 300); now rewrite <- Zle_Qle).
  assert (HA : (bpmToAngle (inject_Z b) == inject_Z b + 195)%Q).
  { unfold bpmToAngle, TOTAL_ANGLE. unfold MIN_BPM, MAX_BPM, START_ANGLE, END_ANGLE. field. }
  set (A := bpmToAngle (inject_Z b)) in *. clearbody A.
  split; [unfold START_ANGLE; lra|]. split; [unfold END_ANGLE; lra|].
  unfold calculateBpmFromPosition, directionOfMark. simpl negb. cbv beta iota zeta.
  apply round_of_integer.
  destruct (Qle_bool A 270) eqn:C1.
  - destruct (Qltb A 0) eqn:C2; [comparisons_as_props; lra|].
    destruct (Qle_bool A 135) eqn:C3; [comparisons_as_props; lra|].
    destruct (Qltb 135 A) eqn:C4; destruct (Qltb A 225) eqn:C5; simpl andb; cbv iota;
      comparisons_as_props; try lra; apply reading_of_mark; lra.
  - destruct (Qltb (A - 360) 0) eqn:C2.
    + destruct (Qle_bool (A - 360 + 360) 135) eqn:C3; [comparisons_as_props; lra|].
      destruct (Qltb 135 (A - 360 + 360)) eqn:C4;
        destruct (Qltb (A - 360 + 360) 225) eqn:C5;
        simpl andb; cbv iota; comparisons_as_props; try lra; apply reading_of_mark; lra.
    + destruct (Qle_bool (A - 360) 135) eqn:C3; [|comparisons_as_props; lra].
      destruct (Qltb 135 (A - 360)) eqn:C4; destruct (Qltb (A - 360) 225) eqn:C5;
        simpl andb; cbv iota; comparisons_as_props; try lra; apply reading_of_mark; lra.
Qed.

Lemma dial_reads_back_its_own_marks_witness :
  (START_ANGLE <= bpmToAngle (inject_Z 200))%Q /\
  (bpmToAngle (inject_Z 200) <= END_ANGLE)%Q /\
  calculateBpmFromPosition true (directionOfMark (bpmToAngle (inject_Z 200))) = 200.
Proof. apply (dial_reads_back_its_own_marks 200). lia. Defined.

(** ** Dragging the handles *)

Lemma moved_keeps_order (dragging : option Handle) (container : bool) (direction : Q)
    (range : Q * Q) :
  (fst range <= snd range)%Q ->
  let range' := moved dragging container direction range in
  (fst range' <= snd range')%Q /\
  (dragging = Some startHandle -> snd range' = snd range) /\
  (dragging = Some maxHandle -> fst range' = fst range).
Proof.
  intros H. unfold moved, handleMouseMove.
  destruct dragging as [[|]|]; simpl.
  - destruct (Qle_bool (inject_Z (calculateBpmFromPosition container direction)) (snd range))
      eqn:C; simpl; [apply Qle_bool_iff in C|]; repeat split; try assumption; discriminate.
  - destruct (Qle_bool (fst range) (inject_Z (calculateBpmFromPosition container direction)))
      eqn:C; simpl; [apply Qle_bool_iff in C|]; repeat split; try assumption; discriminate.
  - repeat split; try assumption; discriminate.
Qed.

(** X26: however the pointer moves while a handle of the dial is dragged,
    the start tempo never passes the maximum tempo: a range with
    [startBpm <= maxBpm] is still one after the drag, and the handle that is
    not dragged keeps its value. *)
Theorem dragging_keeps_start_below_max
    (handle : Handle) (directions : list Q) (range : Q * Q) :
  (fst range <= snd range)%Q ->
  (fst (dragged handle directions range) <= snd (dragged handle directions range))%Q /\
  (handle = startHandle -> snd (dragged handle directions range) = snd range) /\
  (handle = maxHandle -> fst (dragged handle directions range) = fst range).
Proof.
  revert range. unfold dragged.
  induction directions as [|d rest IH]; intros range H.
  - simpl. repeat split. exact H.
  - simpl.
    destruct (moved_keeps_order (Some handle) true d range H) as (O & S1 & M1).
    destruct (IH _ O) as (O' & S2 & M2).
    split; [exact O'|]. split.
    + intros ->. rewrite (S2 eq_refl). now apply S1.
    + intros ->. rewrite (M2 eq_refl). now apply M1.
Qed.

Lemma dragging_keeps_start_below_max_witness :
  (fst (dragged startHandle [100%Q; 20%Q; 250%Q] (80%Q, 200%Q)) <=
   snd (dragged startHandle [100%Q; 20%Q; 250%Q] (80%Q, 200%Q)))%Q /\
  (startHandle = startHandle ->
   snd (dragged startHandle [100%Q; 20%Q; 250%Q] (80%Q, 200%Q)) = snd (80%Q, 200%Q)) /\
  (startHandle = maxHandle ->
   fst (dragged startHandle [100%Q; 20%Q; 250%Q] (80%Q, 200%Q)) = fst (80%Q, 200%Q)).
Proof.
  apply (dragging_keeps_start_below_max startHandle [100%Q; 20%Q; 250%Q] (80%Q, 200%Q)).
  vm_compute. discriminate.
Defined.
